(** * co-curl: a shallow embedding of [co_curl.cpp]

    The program downloads one remote file as several byte ranges, one part
    file per range, checks the part files and concatenates them.  This
    development embeds the functions of [co_curl.cpp] that decide how the
    file is split, downloaded, checked, merged and cleaned up, and states
    the behaviour of the program as theorems about these definitions.

    Conventions.
    - [int] and [long long] values are integers of [Z].  [atoi] and
      [atoll] of a number that cannot be represented and [abs] of the least
      [int] are undefined in C++: they have no value here ([None]), and
      the run of a command line that meets one ends as
      [UndefinedBehaviour].  Conversions that C++ defines are written out
      ([to_int], [to_uintmax]); where a signed operation could overflow,
      the theorem carries the range as a hypothesis.
    - [1E6] is a [double].  In [x + 1E6 < y] of [check_files] the operands
      are converted to [double] and the sum is rounded, which [to_double]
      writes out (binary64, round to nearest, ties to even).  [x *= 1E6]
      is exact for every chunk size the option loop hands on (below 2^31)
      and is embedded as a multiplication of integers.
    - The disk is a finite map from path to file content.  A regular file
      that exists can be opened for reading; whether a path can be opened
      for writing is decided by the environment.  [std::remove] succeeds.
    - libcurl and the remote server are an environment ([world]) that
      answers the size probe and every transfer attempt. *)

From Stdlib Require Import ZArith List Lia Strings.Ascii Strings.String Strings.Byte.
From stdpp Require Import base tactics option list gmap strings pretty.

Local Open Scope Z_scope.

(** ** C++ library pieces used by the program *)

Module Cxx.

(** A call either returns or throws ([std::filesystem::filesystem_error]
    is the only exception the program can meet). *)
Inductive result (A : Type) : Type :=
| Returns (a : A)
| Throws.
Arguments Returns {A} a.
Arguments Throws {A}.

Definition bind {A B : Type} (m : result A) (k : A → result B) : result B :=
  match m with
  | Returns a => k a
  | Throws => Throws
  end.

(** Conversion to [int] (modular, as every supported compiler does and
    C++20 requires). *)
Definition to_int (z : Z) : Z := (z + 2 ^ 31) `mod` 2 ^ 32 - 2 ^ 31.

(** Conversion to [std::uintmax_t]. *)
Definition to_uintmax (z : Z) : Z := z `mod` 2 ^ 64.

(** [std::to_string] of an [int]. *)
Definition to_string (i : Z) : string := pretty i.

(** [atoi] / [atoll]: leading white space, an optional sign, then the
    longest run of decimal digits; [0] when there is none. *)
Fixpoint skip_space (s : string) : string :=
  match s with
  | String c s' => if Ascii.is_space c then skip_space s' else s
  | EmptyString => s
  end.

Fixpoint digits (s : string) (acc : Z) : Z :=
  match s with
  | String c s' =>
      match Ascii.is_nat c with
      | Some k => digits s' (10 * acc + Z.of_nat k)
      | None => acc
      end
  | EmptyString => acc
  end.

Definition numeral (s : string) : Z :=
  match skip_space s with
  | String "-" s' => - digits s' 0
  | String "+" s' => digits s' 0
  | s' => digits s' 0
  end.

(** [atoi]: the number read, when an [int] can hold it. *)
Definition atoi (s : string) : option Z :=
  let n := numeral s in
  if (- 2 ^ 31 <=? n) && (n <? 2 ^ 31) then Some n else None.

(** [atoll]: the number read, when a [long long] can hold it. *)
Definition atoll (s : string) : option Z :=
  let n := numeral s in
  if (- 2 ^ 63 <=? n) && (n <? 2 ^ 63) then Some n else None.

(** [abs]: the only declaration the unqualified name finds is [abs(int)]
    of the C library, which has no value for the least [int]. *)
Definition abs (n : Z) : option Z :=
  if n =? - 2 ^ 31 then None else Some (Z.abs n).

(** [abs(std::atoi(s))]. *)
Definition abs_atoi (s : string) : option Z :=
  match atoi s with
  | Some n => abs n
  | None => None
  end.

(** [abs(std::atoll(s))]: the [long long] is converted to the [int] that
    [abs] takes. *)
Definition abs_atoll (s : string) : option Z :=
  match atoll s with
  | Some n => abs (to_int n)
  | None => None
  end.

(** The unit in the last place of the [double] nearest to [z]. *)
Definition ulp (z : Z) : Z := 2 ^ Z.max 0 (Z.log2 z - 52).

(** Conversion of an integer [z >= 0] to [double]: the nearest multiple
    of [ulp z], the even one when two are as near. *)
Definition to_double (z : Z) : Z :=
  let u := ulp z in
  let q := z / u in
  let r := z `mod` u in
  if 2 * r <? u then q * u
  else if u <? 2 * r then (q + 1) * u
  else if Z.even q then q * u
  else (q + 1) * u.

(** [size + 1E6 < expected] on two [std::uintmax_t]. *)
Definition short_by_1E6 (size expected : Z) : bool :=
  to_double (to_double size + 1000000) <? to_double expected.

(** [s.substr(s.find_last_of('/') + 1)]: what follows the last slash, the
    whole string when there is none ([npos + 1] is [0]). *)
Fixpoint after_last_slash (s : string) : string :=
  match s with
  | String c s' =>
      if bool_decide (c = "/"%char)
      then after_last_slash s'
      else if bool_decide (String.index 0 "/" s' = None) then s
           else after_last_slash s'
  | EmptyString => EmptyString
  end.

End Cxx.

#[global] Instance cxx_bind : MBind Cxx.result := λ A B k m, Cxx.bind m k.
#[global] Instance cxx_ret : MRet Cxx.result := @Cxx.Returns.

(** ** The disk *)

Abbreviation disk := (gmap string (list byte)).

Module Fs.

Import Cxx.

(** [std::filesystem::is_empty(p)] on a path that does not exist reports
    the error of [status(p)] and, in the overload without [error_code]
    that the program calls, throws. *)
Definition is_empty (d : disk) (p : string) : result bool :=
  match d !! p with
  | Some data => Returns (bool_decide (data = []))
  | None => Throws
  end.

(** [std::filesystem::file_size(p)], which throws as well when [p] does
    not exist. *)
Definition file_size (d : disk) (p : string) : result Z :=
  match d !! p with
  | Some data => Returns (Z.of_nat (length data))
  | None => Throws
  end.

(** [fopen(p, "wb")] and [std::ofstream(p)] on success: the file exists
    and is empty. *)
Definition truncate (p : string) (d : disk) : disk := <[p := []]> d.

(** Bytes appended to an open file. *)
Definition append (p : string) (data : list byte) (d : disk) : disk :=
  <[p := default [] (d !! p) ++ data]> d.

(** [std::remove(p)]. *)
Definition remove (p : string) (d : disk) : disk := delete p d.

End Fs.

(** The name of part [i] of [filename]: [filename + ".part" + std::to_string(i)]. *)
Definition part_name (filename : string) (i : Z) : string :=
  filename +:+ ".part" +:+ Cxx.to_string i.

(** ** [check_files] *)

Section check_files.

Import Cxx.

Variable d : disk.
Variable filename : string.
Variables num_part chunk_size last_part_size : Z.

(** One iteration of the loop of [check_files]. *)
Definition check_part (i : Z) (all_present : Z) : result Z :=
  let part_filepath := part_name filename i in
  e ← Fs.is_empty d part_filepath;
  let all_present := if (e : bool) then 0 else all_present in
  if negb (i =? num_part - 1) then
    sz ← Fs.file_size d part_filepath;
    mret (if short_by_1E6 sz chunk_size then -1 else all_present)
  else
    sz ← Fs.file_size d part_filepath;
    mret (if short_by_1E6 sz last_part_size then -1 else all_present).

(** [for(int i = ...; i < num_part; ++i)], with [n] iterations left. *)
Fixpoint check_loop (n : nat) (i : Z) (all_present : Z) : result Z :=
  match n with
  | O => mret all_present
  | S n' => a ← check_part i all_present; check_loop n' (i + 1) a
  end.

Definition check_files : result Z := check_loop (Z.to_nat num_part) 0 1.

End check_files.

(** ** The environment: libcurl and the remote server *)

(** What one pass through the retry loop of [download] meets. *)
Inductive attempt : Type :=
| CannotOpen
    (* [fopen] returned [NULL] *)
| TransferFailed (written : list byte)
    (* [curl_easy_perform] did not return [CURLE_OK]; [written] reached the file *)
| TransferDone (response_code : option Z) (body : list byte).
    (* [CURLE_OK]; the response code is [None] when [curl_easy_getinfo] fails *)

(** What the size probe of [get_file_size] meets. *)
Inductive probe : Type :=
| ProbeNoHandle
    (* [curl_easy_init] returned [NULL] *)
| ProbeFailed
    (* [curl_easy_perform] did not return [CURLE_OK] *)
| ProbeDone (content_length : option Z) (response_code : option Z).
    (* each [None] when the matching [curl_easy_getinfo] fails *)

Record world : Type := World {
  (* the size probe of the url *)
  probe_reply : string → probe;
  (* does [curl_easy_init] hand out a handle for the download to this file *)
  easy_init : string → bool;
  (* attempt number [i] of the transfer of [start]-[end] of the url to a file *)
  transfer : string → string → Z → Z → nat → attempt;
  (* can this path be created or truncated by [std::ofstream] *)
  creatable : string → bool
}.

Definition NUM_TRY_DOWNLOAD : nat := 5.
Definition DEFAULT_NUM_THREADS : Z := 8.
Definition MIN_FILE_SIZE_FOR_PARALLEL : Z := 1000.

(** ** [getHttpStatusMessage] *)

Definition getHttpStatusMessage (response_code : Z) : string :=
  match response_code with
  | 100 => "100 Continue."
  | 101 => "101 Switching Protocols."
  | 200 => "200 OK."
  | 201 => "201 Created."
  | 202 => "202 Accepted."
  | 204 => "204 No Content."
  | 301 => "301 Moved Permanently."
  | 302 => "302 Found."
  | 304 => "304 Not Modified."
  | 400 => "400 Bad Request."
  | 401 => "401 Unauthorized."
  | 403 => "403 Forbidden."
  | 404 => "404 Not Found."
  | 405 => "405 Method Not Allowed."
  | 408 => "408 Request Timeout."
  | 409 => "409 Conflict."
  | 500 => "500 Internal Server Error."
  | 501 => "501 Not Implemented."
  | 502 => "502 Bad Gateway."
  | 503 => "503 Service Unavailable."
  | 504 => "504 Gateway Timeout."
  | 505 => "505 HTTP Version Not Supported."
  | _ => Cxx.to_string response_code +:+ " Unknown Response Code."
  end.

(** ** [get_file_size] *)

Definition get_file_size (w : world) (url : string) : Z :=
  match probe_reply w url with
  | ProbeNoHandle => -1
  | ProbeFailed => -1
  | ProbeDone content_length response_code =>
      let file_size := match content_length with Some n => n | None => -1 end in
      let file_size := if file_size =? 0 then -1 else file_size in
      match response_code with
      | Some c => if 400 <=? c then -1 else file_size
      | None => file_size
      end
  end.

(** ** [download] *)

(** The arguments [user] and [verbose] only set options of the handle and
    print; they are left out. *)

Section download.

Variable w : world.
Variables output_filename url : string.
Variables start end_ : Z.

(** The retry loop, with [n] iterations left and [i] the loop counter.
    The result is the disk and the attempts that were made, in order. *)
Fixpoint download_loop (n : nat) (i : nat) (d : disk) : disk * list attempt :=
  match n with
  | O => (d, [])
  | S n' =>
      let a := transfer w url output_filename start end_ i in
      match a with
      | CannotOpen =>
          (* continue *)
          let '(d', log) := download_loop n' (S i) d in (d', a :: log)
      | TransferFailed written =>
          let d := Fs.truncate output_filename d in
          let d := Fs.append output_filename written d in
          let d := Fs.remove output_filename d in
          let '(d', log) := download_loop n' (S i) d in (d', a :: log)
      | TransferDone response_code body =>
          let d := Fs.truncate output_filename d in
          let d := Fs.append output_filename body d in
          let d :=
            match response_code with
            | Some c => if 400 <=? c then Fs.remove output_filename d else d
            | None => d
            end in
          (* break *)
          (d, [a])
      end
  end.

Definition download (d : disk) : disk * list attempt :=
  if easy_init w output_filename
  then download_loop NUM_TRY_DOWNLOAD 0 d
  else (d, []).

End download.

(** An attempt that the program judges failed. *)
Definition failed (a : attempt) : bool :=
  match a with
  | CannotOpen => true
  | TransferFailed _ => true
  | TransferDone (Some c) _ => 400 <=? c
  | TransferDone None _ => false
  end.

(** ** [merge_files] *)

Section merge_files.

Variable w : world.
Variable output_filename : string.

(** The loop of [merge_files], with [n] iterations left.  [good] is the
    state of [output_file]: [operator<<] on a stream buffer sets [failbit] when it
    inserts no character, and inserts nothing into a stream whose state
    is not good.  The result is the disk, [normal_exit] and the indices of
    the parts whose opening was tried, in order. *)
Fixpoint merge_loop (n : nat) (i : Z) (good : bool) (d : disk)
  : disk * bool * list Z :=
  match n with
  | O => (d, true, [])
  | S n' =>
      let part_filename := part_name output_filename i in
      match d !! part_filename with
      | None =>
          (* break *)
          (d, false, [i])
      | Some data =>
          let inserted := good && negb (bool_decide (data = [])) in
          let d := if inserted then Fs.append output_filename data d else d in
          let '(d', normal_exit, opened) := merge_loop n' (i + 1) inserted d in
          (d', normal_exit, i :: opened)
      end
  end.

Definition merge_files (num_part : Z) (d : disk) : disk * bool * list Z :=
  if negb (creatable w output_filename) then (d, false, [])
  else merge_loop (Z.to_nat num_part) 0 true (Fs.truncate output_filename d).

End merge_files.

(** ** The command line *)

(** The variables of [main] that the option loop sets. *)
Record options : Type := Options {
  num_thread : Z;
  num_part : Z;
  chunk_size : Z;
  mode : Z;
  part_index : Z;
  url : string;
  output_filename : string;
  username : string;
  password : string;
  verbose : bool
}.

Definition set_num_thread (v : Z) (o : options) : options :=
  Options v (num_part o) (chunk_size o) (mode o) (part_index o)
          (url o) (output_filename o) (username o) (password o) (verbose o).
Definition set_num_part (v : Z) (o : options) : options :=
  Options (num_thread o) v (chunk_size o) (mode o) (part_index o)
          (url o) (output_filename o) (username o) (password o) (verbose o).
Definition set_chunk_size (v : Z) (o : options) : options :=
  Options (num_thread o) (num_part o) v (mode o) (part_index o)
          (url o) (output_filename o) (username o) (password o) (verbose o).
Definition set_mode (v : Z) (o : options) : options :=
  Options (num_thread o) (num_part o) (chunk_size o) v (part_index o)
          (url o) (output_filename o) (username o) (password o) (verbose o).
Definition set_part_index (v : Z) (o : options) : options :=
  Options (num_thread o) (num_part o) (chunk_size o) (mode o) v
          (url o) (output_filename o) (username o) (password o) (verbose o).
Definition set_url (v : string) (o : options) : options :=
  Options (num_thread o) (num_part o) (chunk_size o) (mode o) (part_index o)
          v (output_filename o) (username o) (password o) (verbose o).
Definition set_output_filename (v : string) (o : options) : options :=
  Options (num_thread o) (num_part o) (chunk_size o) (mode o) (part_index o)
          (url o) v (username o) (password o) (verbose o).
Definition set_username (v : string) (o : options) : options :=
  Options (num_thread o) (num_part o) (chunk_size o) (mode o) (part_index o)
          (url o) (output_filename o) v (password o) (verbose o).
Definition set_password (v : string) (o : options) : options :=
  Options (num_thread o) (num_part o) (chunk_size o) (mode o) (part_index o)
          (url o) (output_filename o) (username o) v (verbose o).
Definition set_verbose (v : bool) (o : options) : options :=
  Options (num_thread o) (num_part o) (chunk_size o) (mode o) (part_index o)
          (url o) (output_filename o) (username o) (password o) v.

(** The values [main] starts from. *)
Definition initial_options : options :=
  Options DEFAULT_NUM_THREADS (-1) (-1) 0 (-1) "" "" "" "" false.

(** How the option loop ends: [Stop normal_exit] is [start = false], and
    [Go o] is the end of the arguments with [start] still [true].  The
    loop has no defined end when it reads a number that [atoi], [atoll] or
    [abs] has no value for. *)
Inductive parsed : Type :=
| Stop (normal_exit : bool)
| Go (o : options)
| UndefinedArgs.

Definition is_opt (arg short long : string) : bool :=
  bool_decide (arg = short) || bool_decide (arg = long).

(** The option loop of [main] over [argv[1..]]. *)
Fixpoint parse_args (o : options) (args : list string) : parsed :=
  match args with
  | [] => Go o
  | arg :: rest =>
      if is_opt arg "-nth" "--num-thread" then
        match rest with
        | v :: rest' =>
            match Cxx.abs_atoi v with
            | Some n =>
                let n := if n =? 0 then DEFAULT_NUM_THREADS else n in
                parse_args (set_num_thread n o) rest'
            | None => UndefinedArgs
            end
        | [] => Stop false
        end
      else if is_opt arg "-np" "--num-part" then
        match rest with
        | v :: rest' =>
            match Cxx.abs_atoi v with
            | Some n =>
                let n := if n =? 0 then -1 else n in
                parse_args (set_chunk_size (-1) (set_num_part n o)) rest'
            | None => UndefinedArgs
            end
        | [] => Stop false
        end
      else if is_opt arg "-cs" "--chunk-size" then
        match rest with
        | v :: rest' =>
            match Cxx.abs_atoll v with
            | Some c =>
                let c := if c <? 10 then -1 else c in
                parse_args (set_num_part (-1) (set_chunk_size c o)) rest'
            | None => UndefinedArgs
            end
        | [] => Stop false
        end
      else if is_opt arg "-s" "--single-part" then
        match rest with
        | v :: rest' =>
            match Cxx.abs_atoi v with
            | Some k =>
                if k <? 0 then Stop false
                else parse_args (set_part_index k (set_mode 1 o)) rest'
            | None => UndefinedArgs
            end
        | [] => Stop false
        end
      else if is_opt arg "-m" "--merge" then
        parse_args (set_mode 2 o) rest
      else if is_opt arg "-o" "--output" then
        match rest with
        | v :: rest' => parse_args (set_output_filename v o) rest'
        | [] => Stop false
        end
      else if is_opt arg "-u" "--username" then
        match rest with
        | v :: rest' => parse_args (set_username v o) rest'
        | [] => Stop false
        end
      else if is_opt arg "-p" "--password" then
        match rest with
        | v :: rest' => parse_args (set_password v o) rest'
        | [] => Stop false
        end
      else if is_opt arg "-v" "--verbose" then
        parse_args (set_verbose true o) rest
      else if is_opt arg "-h" "--help" then
        Stop true
      else
        match rest with
        | [] => Go (set_url arg o)
        | _ :: _ => Stop false
        end
  end.

(** ** Splitting the file *)

(** The lines of [main] between the probe and the check of [part_index]:
    they fix [mode], [num_part], [chunk_size] and [num_thread]. *)
Definition split (file_size : Z) (o : options) : options :=
  let o :=
    if file_size <? MIN_FILE_SIZE_FOR_PARALLEL
    then set_num_part 1 (set_chunk_size (-1) (set_mode (-1) o))
    else o in
  let o :=
    if chunk_size o <? 0 then
      let o := if num_part o <? 0 then set_num_part (num_thread o) o else o in
      set_chunk_size (file_size ÷ num_part o) o
    else if num_part o <? 0 then
      let o := set_chunk_size (chunk_size o * 1000000) o in
      set_num_part (Cxx.to_int (file_size ÷ chunk_size o + 1)) o
    else o in
  if (mode o =? 0) && (num_part o <? num_thread o)
  then set_num_thread (num_part o) o
  else o.

(** The inclusive byte range of part [i]. *)
Definition part_range (file_size num_part chunk_size : Z) (i : Z) : Z * Z :=
  let start := i * chunk_size in
  let end_ := if i =? num_part - 1 then file_size - 1 else start + chunk_size - 1 in
  (start, end_).

(** ** [main] *)

(** What a run does to the outside, in order. *)
Inductive event : Type :=
| EvProbe (url : string)
    (* [get_file_size] is called *)
| EvDownload (output_filename : string) (start end_ : Z)
    (* [download] is called *)
| EvCheck (num_part chunk_size last_part_size : Z)
    (* [check_files] is called *)
| EvMerge (num_part : Z).
    (* [merge_files] is called *)

(** How the process ends: [return] from [main], or [std::terminate] after
    an exception that nothing catches; or not in a way the language
    defines, after a number on the command line that has no value. *)
Inductive ending : Type :=
| Exit (code : Z)
| Terminate
| UndefinedBehaviour.

Record run : Type := Run {
  status : ending;
  disk_after : disk;
  events : list event
}.

Section main.

Variable w : world.

(** The [omp parallel for] over the parts, with [n] iterations left.
    Every iteration writes a file of its own, so the disk after the loop
    is the same in every schedule; the embedding runs the iterations in
    index order. *)
Fixpoint download_parts (o : options) (file_size : Z)
    (n : nat) (i : Z) (d : disk) : disk * list event :=
  match n with
  | O => (d, [])
  | S n' =>
      let '(start, end_) := part_range file_size (num_part o) (chunk_size o) i in
      let part_filename := part_name (output_filename o) i in
      let d := fst (download w part_filename (url o) start end_ d) in
      let '(d', evs) := download_parts o file_size n' (i + 1) d in
      (d', EvDownload part_filename start end_ :: evs)
  end.

(** The [// Download] block. *)
Definition download_stage (o : options) (file_size : Z) (d : disk)
  : disk * list event :=
  if mode o =? -1 then
    (fst (download w (output_filename o) (url o) 0 (file_size - 1) d),
     [EvDownload (output_filename o) 0 (file_size - 1)])
  else if mode o =? 0 then
    download_parts o file_size (Z.to_nat (num_part o)) 0 d
  else if mode o =? 1 then
    let i := part_index o in
    let '(start, end_) := part_range file_size (num_part o) (chunk_size o) i in
    let part_filename := part_name (output_filename o) i in
    (fst (download w part_filename (url o) start end_ d),
     [EvDownload part_filename start end_])
  else (d, []).

(** The loop that deletes the part files, with [n] iterations left. *)
Fixpoint remove_parts (filename : string) (n : nat) (i : Z) (d : disk) : disk :=
  match n with
  | O => d
  | S n' => remove_parts filename n' (i + 1) (Fs.remove (part_name filename i) d)
  end.

(** The [// Check, Merge, Remove] block for [mode] 0 and 2. *)
Definition check_merge_remove (filename : string)
    (num_part chunk_size file_size : Z) (d : disk) : run :=
  let last_part_size := file_size - (num_part - 1) * chunk_size in
  let check := EvCheck num_part (Cxx.to_uintmax chunk_size)
                       (Cxx.to_uintmax last_part_size) in
  match check_files d filename num_part (Cxx.to_uintmax chunk_size)
                    (Cxx.to_uintmax last_part_size) with
  | Cxx.Throws => Run Terminate d [check]
  | Cxx.Returns part_status =>
      let '(d, normal_exit, evs) :=
        if negb (part_status =? 0)
        then let '(d', ok, _) := merge_files w filename num_part d in
             (d', ok, [check; EvMerge num_part])
        else (d, false, [check]) in
      let d :=
        if normal_exit
        then if part_status =? 1
             then remove_parts filename (Z.to_nat num_part) 0 d
             else d
        else Fs.remove filename d in
      Run (Exit (if normal_exit then 0 else 1)) d evs
  end.

(** The output file name, when [-o] did not give one. *)
Definition default_output (o : options) : options :=
  if bool_decide (output_filename o = "")
  then set_output_filename (Cxx.after_last_slash (url o)) o
  else o.

(** [main] after the option loop, with [start] true.  The loop sets
    [normal_exit] to false only together with [start], so the later test
    [if( !normal_exit ) return 1] never fires and is left out; what the
    program prints is left out as well. *)
Definition main_go (o : options) (d : disk) : run :=
  if bool_decide (url o = "") then Run (Exit 1) d []
  else
    let o := default_output o in
    let file_size := get_file_size w (url o) in
    if file_size <=? 0 then Run (Exit 1) d [EvProbe (url o)]
    else
      let o := split file_size o in
      if part_index o >? num_part o - 1 then Run (Exit 1) d [EvProbe (url o)]
      else
        let '(d, dl) := download_stage o file_size d in
        if (mode o =? 0) || (mode o =? 2) then
          let r := check_merge_remove (output_filename o) (num_part o)
                                      (chunk_size o) file_size d in
          Run (status r) (disk_after r) (EvProbe (url o) :: dl ++ events r)
        else Run (Exit 0) d (EvProbe (url o) :: dl).

Definition main (argv : list string) (d : disk) : run :=
  match parse_args initial_options (tail argv) with
  | Stop normal_exit => Run (Exit (if normal_exit then 0 else 1)) d []
  | Go o => main_go o d
  | UndefinedArgs => Run UndefinedBehaviour d []
  end.

End main.

(** ** Vocabulary of the statements *)

(** A server that reports [size] bytes and an environment in which every
    transfer succeeds with the same [body]. *)
Definition plain_world (size : Z) (body : list byte) : world :=
  World (λ _, ProbeDone (Some size) (Some 200)) (λ _, true)
        (λ _ _ _ _ _, TransferDone (Some 206) body) (λ _, true).

(** A server that answers every transfer with status 503 and one byte. *)
Definition unavailable_world : world :=
  World (λ _, ProbeFailed) (λ _, true)
        (λ _ _ _ _ _, TransferDone (Some 503) [x01]) (λ _, true).

(** An environment in which no file can be created. *)
Definition readonly_world : world :=
  World (λ _, ProbeFailed) (λ _, true) (λ _ _ _ _ _, CannotOpen) (λ _, false).


(** The contents of parts [i .. i+n-1] on disk [d], one after the other. *)
Definition parts_content (d : disk) (filename : string) (i n : Z) : list byte :=
  mjoin ((λ j, default [] (d !! part_name filename j)) <$> seqZ i n).

(** What holds of the options whenever the loop hands them on. *)
Record sane (o : options) : Prop := Sane {
  sane_threads : 1 ≤ num_thread o;
  sane_parts : num_part o = -1 ∨ 1 ≤ num_part o;
  sane_chunk : chunk_size o = -1 ∨ 10 ≤ chunk_size o;
  sane_exclusive : num_part o = -1 ∨ chunk_size o = -1;
  sane_mode : mode o = 0 ∨ mode o = 1 ∨ mode o = 2;
  sane_all : mode o = 0 → part_index o = -1;
  sane_index : -1 ≤ part_index o;
  sane_single : mode o = 1 → 0 ≤ part_index o
}.

(** [ev] is a call of [download]. *)
Definition is_download (ev : event) : bool :=
  match ev with
  | EvDownload _ _ _ => true
  | _ => false
  end.

(** The calls of [download] among the events of a run. *)
Definition downloads (r : run) : list event :=
  filter (λ ev, is_download ev = true) (events r).

(** Part [i] is on disk and has no byte. *)
Definition is_empty_part (d : disk) (filename : string) (i : Z) : bool :=
  match d !! part_name filename i with
  | Some [] => true
  | _ => false
  end.

(** Part [i] is on disk and [check_files] finds it more than 1E6 bytes
    shorter than it expects: [L] for the last of [P] parts, [C] for the
    others. *)
Definition is_undersized_part (d : disk) (filename : string) (P C L : Z) (i : Z)
  : bool :=
  match d !! part_name filename i with
  | Some data =>
      Cxx.short_by_1E6 (Z.of_nat (length data)) (if i =? P - 1 then L else C)
  | None => false
  end.

(** [ev] is the size probe. *)
Definition is_probe (ev : event) : bool :=
  match ev with
  | EvProbe _ => true
  | _ => false
  end.

(** The bytes [start .. end_] of [content]; nothing when the range is empty. *)
Definition slice (content : list byte) (start end_ : Z) : list byte :=
  take (Z.to_nat (end_ - start + 1)) (drop (Z.to_nat start) content).

(** A server that holds [content]: the probe reports its length, and every
    transfer succeeds at once with status 206 and the bytes of the range
    that was asked for.  Every file can be created. *)
Definition honest_world (content : list byte) : world :=
  World (λ _, ProbeDone (Some (Z.of_nat (length content))) (Some 200))
        (λ _, true)
        (λ _ _ start end_ _, TransferDone (Some 206) (slice content start end_))
        (λ _, true).

(** * Properties *)

(** ** Part names *)

Lemma part_name_inj (filename : string) (i j : Z) :
  part_name filename i = part_name filename j → i = j.
Proof.
  unfold part_name, Cxx.to_string. intros H.
  apply (inj (String.app filename)) in H.
  apply (inj (String.app ".part")) in H.
  by apply (inj pretty) in H.
Qed.

Lemma append_empty (s : string) : s +:+ "" = s.
Proof.
  induction s as [|c s IH]; [done|].
  change (String c (s +:+ "") = String c s). by rewrite IH.
Qed.

Lemma part_name_ne (filename : string) (i : Z) :
  part_name filename i ≠ filename.
Proof.
  unfold part_name. intros H.
  rewrite <- (append_empty filename) in H at 2.
  apply (inj (String.app filename)) in H. discriminate H.
Qed.

(** ** Conversion to [double] *)

Lemma ulp_pos (z : Z) : 0 < Cxx.ulp z.
Proof. unfold Cxx.ulp. apply Z.pow_pos_nonneg; lia. Qed.

Lemma ulp_small (z : Z) : z < 2 ^ 53 → Cxx.ulp z = 1.
Proof.
  intros Hz. unfold Cxx.ulp.
  assert (Z.log2 z ≤ 52).
  { destruct (Z.le_gt_cases z 0) as [H0|H0].
    - rewrite Z.log2_nonpos by done. lia.
    - apply Z.log2_lt_pow2 in Hz; lia. }
  by rewrite Z.max_l by lia.
Qed.

Lemma to_double_small (z : Z) : z < 2 ^ 53 → Cxx.to_double z = z.
Proof.
  intros Hz. unfold Cxx.to_double. rewrite ulp_small by done.
  rewrite Z.mod_1_r, Z.div_1_r. cbv zeta.
  change (2 * 0 <? 1) with true. cbv iota. lia.
Qed.

Lemma short_by_1E6_exact (size expected : Z) :
  size + 1000000 < 2 ^ 53 → expected < 2 ^ 53 →
  Cxx.short_by_1E6 size expected = (size + 1000000 <? expected).
Proof.
  intros Hs He. unfold Cxx.short_by_1E6.
  rewrite (to_double_small size) by lia.
  by rewrite !to_double_small by lia.
Qed.

(** The result is one of the two multiples of the unit around [z]. *)
Lemma to_double_cases (z : Z) :
  Cxx.to_double z = z / Cxx.ulp z * Cxx.ulp z
  ∨ (Cxx.to_double z = (z / Cxx.ulp z + 1) * Cxx.ulp z ∧ z `mod` Cxx.ulp z ≠ 0).
Proof.
  unfold Cxx.to_double. cbv zeta.
  pose proof (ulp_pos z).
  destruct (Z.ltb_spec (2 * (z `mod` Cxx.ulp z)) (Cxx.ulp z)); [by left|].
  destruct (Z.ltb_spec (Cxx.ulp z) (2 * (z `mod` Cxx.ulp z))); [right; split; [done|lia]|].
  destruct (Z.even _); [by left | right; split; [done|lia]].
Qed.

Lemma to_double_floor (z : Z) : z / Cxx.ulp z * Cxx.ulp z ≤ Cxx.to_double z.
Proof.
  pose proof (ulp_pos z). destruct (to_double_cases z) as [->|[-> _]]; lia.
Qed.

(** The unit of a number of at least 2^53, by its binary logarithm. *)
Lemma ulp_large (z : Z) :
  2 ^ 53 ≤ z →
  Cxx.ulp z = 2 ^ (Z.log2 z - 52) ∧ 2 ^ Z.log2 z = 2 ^ 52 * Cxx.ulp z
  ∧ 53 ≤ Z.log2 z.
Proof.
  intros Hz. assert (53 ≤ Z.log2 z).
  { apply Z.log2_le_pow2; lia. }
  unfold Cxx.ulp. rewrite Z.max_r by lia. split_and!; [done | | done].
  rewrite <- Z.pow_add_r by lia. f_equal. lia.
Qed.

(** What [to_double] returns is a multiple of its own unit. *)
Lemma to_double_representable (x : Z) :
  0 ≤ x → (Cxx.ulp (Cxx.to_double x) | Cxx.to_double x).
Proof.
  intros Hx. destruct (Z.lt_ge_cases x (2 ^ 53)) as [Hs|Hl].
  { rewrite to_double_small, ulp_small by done. apply Z.divide_1_l. }
  destruct (ulp_large x Hl) as (Hu & Hpow & HL).
  pose proof (Z.log2_spec x ltac:(lia)) as [Hlo Hhi].
  pose proof (ulp_pos x) as Hpos.
  set (u := Cxx.ulp x) in *. set (L := Z.log2 x) in *.
  assert (Hhi' : x < 2 ^ 53 * u).
  { replace (2 ^ 53) with (2 * 2 ^ 52) by done.
    rewrite <- Z.mul_assoc, <- Hpow. replace (Z.succ L) with (L + 1) in Hhi by lia.
    rewrite Z.pow_add_r in Hhi by lia. lia. }
  assert (Hq : 2 ^ 52 ≤ x / u < 2 ^ 53).
  { split.
    - apply Z.div_le_lower_bound; lia.
    - apply Z.div_lt_upper_bound; lia. }
  set (y := Cxx.to_double x).
  assert (Hy : ∃ m, y = m * u ∧ 2 ^ 52 ≤ m ≤ 2 ^ 53).
  { destruct (to_double_cases x) as [E|[E _]]; fold u y in E; rewrite E;
      eexists; (split; [done | lia]). }
  destruct Hy as (m & Hy & Hm). destruct (decide (m = 2 ^ 53)) as [->|Hne].
  - assert (Ey : y = 2 ^ (L + 1)).
    { rewrite Hy, Z.pow_add_r, Hpow by lia.
      replace (2 ^ 53) with (2 ^ 52 * 2 ^ 1) by done. lia. }
    assert (Z.log2 y = L + 1) by (rewrite Ey; apply Z.log2_pow2; lia).
    unfold Cxx.ulp. rewrite H, Z.max_r by lia. rewrite Ey.
    exists (2 ^ 52). rewrite <- Z.pow_add_r by lia. f_equal. lia.
  - assert (Z.log2 y = L).
    { apply Z.log2_unique; [lia|]. split.
      - rewrite Hpow, Hy. nia.
      - replace (L + 1) with (Z.succ L) by lia.
        rewrite Z.pow_succ_r, Hpow, Hy by lia.
        assert (m < 2 ^ 53) by lia.
        replace (2 ^ 53) with (2 * 2 ^ 52) in * by done. nia. }
    unfold Cxx.ulp at 1. rewrite H, Z.max_r by lia. rewrite <- Hu. fold u.
    exists m. done.
Qed.

(** A [double] below [z] is not above the conversion of [z]. *)
Lemma to_double_ge (y z : Z) :
  0 ≤ y → (Cxx.ulp y | y) → y ≤ z → y ≤ Cxx.to_double z.
Proof.
  intros Hy Hrep Hyz.
  pose proof (to_double_floor z) as Hfloor. pose proof (ulp_pos z) as Hpos.
  destruct (Z.lt_ge_cases z (2 ^ 53)) as [Hs|Hl].
  { rewrite to_double_small by done. done. }
  destruct (ulp_large z Hl) as (Hu & Hpow & HL).
  pose proof (Z.log2_spec z ltac:(lia)) as [Hlo Hhi].
  destruct (decide (Z.log2 y = Z.log2 z)) as [E|Hne].
  - assert (Euy : Cxx.ulp y = Cxx.ulp z) by (unfold Cxx.ulp; by rewrite E).
    rewrite Euy in Hrep. destruct Hrep as [k Hk].
    assert (k ≤ z / Cxx.ulp z) by (apply Z.div_le_lower_bound; lia).
    etrans; [|exact Hfloor]. rewrite Hk. nia.
  - assert (Hlt : Z.log2 y < Z.log2 z).
    { pose proof (Z.log2_le_mono y z Hyz). lia. }
    assert (y < 2 ^ Z.log2 z).
    { destruct (decide (y = 0)) as [->|]; [apply Z.pow_pos_nonneg; lia|].
      pose proof (Z.log2_spec y ltac:(lia)) as [_ Hyhi].
      eapply Z.lt_le_trans; [exact Hyhi|].
      apply Z.pow_le_mono_r; lia. }
    assert (2 ^ 52 ≤ z / Cxx.ulp z) by (apply Z.div_le_lower_bound; lia).
    etrans; [|exact Hfloor]. nia.
Qed.

Lemma to_double_nonneg (z : Z) : 0 ≤ z → 0 ≤ Cxx.to_double z.
Proof.
  intros Hz. pose proof (ulp_pos z). pose proof (to_double_floor z).
  pose proof (Z.div_pos z (Cxx.ulp z) Hz ltac:(lia)). nia.
Qed.

(** With an expected size below 2^53 the comparison is the exact one,
    whatever the size of the file. *)
Lemma short_by_1E6_bounded (size expected : Z) :
  0 ≤ size → expected < 2 ^ 53 →
  Cxx.short_by_1E6 size expected = (size + 1000000 <? expected).
Proof.
  intros Hs He. destruct (Z.lt_ge_cases (size + 1000000) (2 ^ 53)) as [Hlt|Hge].
  { by apply short_by_1E6_exact. }
  assert (H53 : ∀ z, 2 ^ 53 ≤ z → 2 ^ 53 ≤ Cxx.to_double z).
  { intros z Hz. apply to_double_ge; [done | | done]. by exists (2 ^ 52). }
  assert (Hsum : 2 ^ 53 ≤ Cxx.to_double size + 1000000).
  { destruct (Z.lt_ge_cases size (2 ^ 53)) as [Hlt|Hge'].
    - by rewrite to_double_small.
    - specialize (H53 size Hge'). lia. }
  specialize (H53 _ Hsum).
  unfold Cxx.short_by_1E6. rewrite (to_double_small expected) by done.
  transitivity false; [apply Z.ltb_ge | symmetry; apply Z.ltb_ge]; lia.
Qed.

(** A file that has the size expected of it is not found short. *)
Lemma short_by_1E6_same (size : Z) : 0 ≤ size → Cxx.short_by_1E6 size size = false.
Proof.
  intros Hs. unfold Cxx.short_by_1E6. apply Z.ltb_ge.
  apply to_double_ge.
  - by apply to_double_nonneg.
  - by apply to_double_representable.
  - lia.
Qed.

(** ** [check_files] *)

(** [check_files] throws as soon as it meets a part that is not on disk:
    neither [all_present = 0] nor any other verdict is returned. *)
Lemma check_loop_absent (d : disk) (filename : string) (P C L : Z) (k : Z) :
  d !! part_name filename k = None →
  ∀ (n : nat) (i a : Z),
    i ≤ k < i + Z.of_nat n →
    check_loop d filename P C L n i a = Cxx.Throws.
Proof.
  intros Hk n. induction n as [|n IH]; intros i a Hi; [lia|].
  cbn [check_loop]. destruct (decide (i = k)) as [->|Hne].
  - unfold check_part, Fs.is_empty. by rewrite Hk.
  - destruct (check_part d filename P C L i a) as [a'|]; [|done].
    apply IH. lia.
Qed.

Lemma check_files_absent (d : disk) (filename : string) (P C L : Z) (k : Z) :
  0 ≤ k < P →
  d !! part_name filename k = None →
  check_files d filename P C L = Cxx.Throws.
Proof.
  intros Hk Hd. unfold check_files.
  apply (check_loop_absent d filename P C L k Hd). lia.
Qed.

(** When [check_files] returns, every part is on disk. *)
Lemma check_files_returns_present (d : disk) (filename : string) (P C L v : Z) :
  check_files d filename P C L = Cxx.Returns v →
  ∀ i, 0 ≤ i < P → is_Some (d !! part_name filename i).
Proof.
  intros Hv i Hi.
  destruct (d !! part_name filename i) as [data|] eqn:E; [by eexists|].
  by rewrite (check_files_absent d filename P C L i Hi E) in Hv.
Qed.

(** C1.  An empty part does not make the verdict [0] (missing): with two
    parts of 2,000,000 expected bytes, part 0 present and empty and part 1
    holding one byte, [check_files] sets [all_present = 0] for part 0 and
    then overwrites it with [-1] in the size comparison, so the verdict is
    [-1] (undersized) and [main] goes on to merge and exits with 0. *)
Theorem check_files_empty_part_not_missing :
  let d : disk := <["f.part0" := []]> (<["f.part1" := [x01]]> ∅) in
  let r := main (plain_world 4000000 []) ["co-curl"; "-m"; "-np"; "2"; "http://h/f"] d in
  check_files d "f" 2 2000000 2000000 = Cxx.Returns (-1)
  ∧ events r = [EvProbe "http://h/f"; EvCheck 2 2000000 2000000; EvMerge 2]
  ∧ status r = Exit 0
  ∧ disk_after r !! "f" = Some [].
Proof. vm_compute. done. Qed.

(** C4.  A part that is not on disk makes [check_files] throw instead of
    returning: with part 0 present and part 1 absent,
    [std::filesystem::is_empty] throws on part 1, no verdict is returned and
    [main] ends in [std::terminate]. *)
Theorem check_files_absent_part_throws :
  let d : disk := <["f.part0" := [x01]]> ∅ in
  let r := main (plain_world 4000 []) ["co-curl"; "-m"; "-np"; "2"; "http://h/f"] d in
  check_files d "f" 2 2000 2000 = Cxx.Throws
  ∧ events r = [EvProbe "http://h/f"; EvCheck 2 2000 2000]
  ∧ status r = Terminate.
Proof. vm_compute. done. Qed.

(** ** [download] *)

Section download_facts.

Variable w : world.
Variables f url : string.
Variables s e : Z.

Local Abbreviation loop := (download_loop w f url s e).
Local Abbreviation att := (transfer w url f s e).

Lemma download_loop_length (n i : nat) (d : disk) :
  (length (loop n i d).2 ≤ n)%nat.
Proof.
  revert i d. induction n as [|n IH]; intros i d; cbn [download_loop]; [done|].
  destruct (att i) as [|wr|c b].
  - specialize (IH (S i) d). destruct (loop n (S i) d). simpl in *. lia.
  - match goal with |- context [loop n (S i) ?d1] =>
      specialize (IH (S i) d1); destruct (loop n (S i) d1) end.
    simpl in *. lia.
  - simpl. lia.
Qed.

Lemma download_loop_other (n i : nat) (d : disk) (p : string) :
  p ≠ f → (loop n i d).1 !! p = d !! p.
Proof.
  intros Hp. revert i d.
  induction n as [|n IH]; intros i d; cbn [download_loop]; [done|].
  destruct (att i) as [|wr|c b].
  - specialize (IH (S i) d). by destruct (loop n (S i) d).
  - match goal with |- context [loop n (S i) ?d1] =>
      specialize (IH (S i) d1); destruct (loop n (S i) d1) end.
    simpl in *. rewrite IH. unfold Fs.remove, Fs.append, Fs.truncate.
    by rewrite lookup_delete_ne, !lookup_insert_ne.
  - unfold Fs.remove, Fs.append, Fs.truncate.
    destruct c as [c|]; [destruct (400 <=? c)|]; simpl;
      by rewrite ?lookup_delete_ne, !lookup_insert_ne.
Qed.

Lemma download_loop_log (n i : nat) (d : disk) (k : nat) (a : attempt) :
  (loop n i d).2 !! k = Some a → a = att (i + k)%nat.
Proof.
  revert i d k. induction n as [|n IH]; intros i d k; cbn [download_loop]; [done|].
  destruct (att i) as [|wr|c b] eqn:E.
  - specialize (IH (S i) d). destruct (loop n (S i) d). simpl.
    destruct k as [|k]; simpl.
    + intros [= <-]. by rewrite Nat.add_0_r.
    + intros H. apply IH in H. by rewrite Nat.add_succ_r.
  - match goal with |- context [loop n (S i) ?d1] =>
      specialize (IH (S i) d1); destruct (loop n (S i) d1) end.
    simpl. destruct k as [|k]; simpl.
    + intros [= <-]. by rewrite Nat.add_0_r.
    + intros H. apply IH in H. by rewrite Nat.add_succ_r.
  - simpl. destruct k as [|k]; simpl; [|done].
    intros [= <-]. by rewrite Nat.add_0_r.
Qed.

(** After an attempt that did not complete the transfer, the next one is
    made while the budget lasts. *)
Lemma download_loop_next (n i : nat) (d : disk) (k : nat) (a : attempt) :
  (loop n i d).2 !! k = Some a →
  (S k < n)%nat →
  (∀ c b, a ≠ TransferDone c b) →
  is_Some ((loop n i d).2 !! S k).
Proof.
  revert i d k. induction n as [|n IH]; intros i d k; cbn [download_loop]; [done|].
  destruct (att i) as [|wr|c b] eqn:E.
  - specialize (IH (S i) d). destruct (loop n (S i) d) as [d' log] eqn:El.
    simpl in *. destruct k as [|k]; simpl.
    + intros _ Hn _. destruct n as [|n]; [lia|].
      revert El. cbn [download_loop].
      destruct (att (S i)); repeat case_match; intros [= <- <-]; by eexists.
    + intros H Hn Ha. apply IH; [done | lia | done].
  - match goal with |- context [loop n (S i) ?d1] =>
      specialize (IH (S i) d1); destruct (loop n (S i) d1) as [d' log] eqn:El end.
    simpl in *. destruct k as [|k]; simpl.
    + intros _ Hn _. destruct n as [|n]; [lia|].
      revert El. cbn [download_loop].
      destruct (att (S i)); repeat case_match; intros [= <- <-]; by eexists.
    + intros H Hn Ha. apply IH; [done | lia | done].
  - simpl. destruct k as [|k]; simpl; [|done].
    intros [= <-] _ Ha. by destruct (Ha c b).
Qed.

(** A completed transfer is the last attempt, whatever its status code. *)
Lemma download_loop_done_last (n i : nat) (d : disk) (k : nat) c b :
  (loop n i d).2 !! k = Some (TransferDone c b) →
  length (loop n i d).2 = S k.
Proof.
  revert i d k. induction n as [|n IH]; intros i d k; cbn [download_loop]; [done|].
  destruct (att i) as [|wr|c' b'] eqn:E.
  - specialize (IH (S i) d). destruct (loop n (S i) d). simpl in *.
    destruct k as [|k]; simpl; [done|]. intros H. by rewrite (IH _ H).
  - match goal with |- context [loop n (S i) ?d1] =>
      specialize (IH (S i) d1); destruct (loop n (S i) d1) end.
    simpl in *. destruct k as [|k]; simpl; [done|]. intros H. by rewrite (IH _ H).
  - simpl. by destruct k.
Qed.

End download_facts.

Section download_file.

Variable w : world.
Variables f url : string.
Variables s e : Z.

Local Abbreviation loop := (download_loop w f url s e).
Local Abbreviation att := (transfer w url f s e).

Lemma written_then_removed (data : list byte) (d : disk) :
  Fs.remove f (Fs.append f data (Fs.truncate f d)) !! f = None.
Proof. unfold Fs.remove. apply lookup_delete_eq. Qed.

Lemma written_in_full (data : list byte) (d : disk) :
  Fs.append f data (Fs.truncate f d) !! f = Some data.
Proof.
  unfold Fs.append, Fs.truncate. by rewrite lookup_insert_eq, lookup_insert_eq.
Qed.

(** When every attempt was judged failed and the file was absent before or
    was opened by one of them, no file is left. *)
Lemma download_loop_failed_absent (n i : nat) (d : disk) :
  Forall (λ a, failed a = true) (loop n i d).2 →
  d !! f = None ∨ Exists (λ a, a ≠ CannotOpen) (loop n i d).2 →
  (loop n i d).1 !! f = None.
Proof.
  revert i d. induction n as [|n IH]; intros i d; cbn [download_loop].
  { simpl. intros _ [H|H]; [done | by apply Exists_nil in H]. }
  destruct (att i) as [|wr|c b] eqn:E.
  - specialize (IH (S i) d). destruct (loop n (S i) d) as [d' log]. simpl in *.
    intros Hall Hex. apply Forall_cons in Hall as [_ Hall].
    apply IH; [done|]. destruct Hex as [Hex|Hex]; [by left|].
    apply Exists_cons in Hex as [Hex|Hex]; [done | by right].
  - match goal with |- context [loop n (S i) ?d1] =>
      specialize (IH (S i) d1); destruct (loop n (S i) d1) as [d' log] end.
    simpl in *. intros Hall _. apply Forall_cons in Hall as [_ Hall].
    apply IH; [done|]. left. apply written_then_removed.
  - simpl. intros Hall _. apply Forall_cons in Hall as [Hf _]. simpl in Hf.
    destruct c as [c|]; [|done]. rewrite Hf. apply written_then_removed.
Qed.

(** Attempts that could not open the file leave the disk as it was. *)
Lemma download_loop_unopened (n i : nat) (d : disk) :
  Forall (λ a, a = CannotOpen) (loop n i d).2 → (loop n i d).1 = d.
Proof.
  revert i d. induction n as [|n IH]; intros i d; cbn [download_loop]; [done|].
  destruct (att i) as [|wr|c b] eqn:E.
  - specialize (IH (S i) d). destruct (loop n (S i) d) as [d' log]. simpl in *.
    intros Hall. apply Forall_cons in Hall as [_ Hall]. by apply IH.
  - match goal with |- context [loop n (S i) ?d1] =>
      destruct (loop n (S i) d1) as [d' log] end.
    simpl. intros Hall. by apply Forall_cons in Hall as [? _].
  - simpl. intros Hall. by apply Forall_cons in Hall as [? _].
Qed.

(** A completed transfer that is not judged failed leaves the body. *)
Lemma download_loop_success (n i : nat) (d : disk) (k : nat) c b :
  (loop n i d).2 !! k = Some (TransferDone c b) →
  failed (TransferDone c b) = false →
  (loop n i d).1 !! f = Some b.
Proof.
  revert i d k. induction n as [|n IH]; intros i d k; cbn [download_loop]; [done|].
  destruct (att i) as [|wr|c' b'] eqn:E.
  - specialize (IH (S i) d). destruct (loop n (S i) d) as [d' log]. simpl in *.
    destruct k as [|k]; simpl; [done|]. apply IH.
  - match goal with |- context [loop n (S i) ?d1] =>
      specialize (IH (S i) d1); destruct (loop n (S i) d1) as [d' log] end.
    simpl in *. destruct k as [|k]; simpl; [done|]. apply IH.
  - simpl. destruct k as [|k]; simpl; [|done]. intros [= -> ->] Hf. simpl in Hf.
    destruct c as [c|]; [rewrite Hf|]; apply written_in_full.
Qed.

End download_file.

(** C2, as stated, fails.  With a server that answers 503, the first
    attempt is judged failed and its file is deleted, but the loop is left:
    one attempt is made out of five and no next attempt proceeds. *)
Lemma download_http_error_not_retried :
  let r := download unavailable_world "f.part0" "http://h/f" 0 499 ∅ in
  r.2 !! 0%nat = Some (TransferDone (Some 503) [x01])
  ∧ failed (TransferDone (Some 503) [x01]) = true
  ∧ r.2 !! 1%nat = None
  ∧ length r.2 = 1%nat
  ∧ r.1 !! "f.part0" = None.
Proof. vm_compute. done. Qed.

(** C2, amended.  [download] makes at most [NUM_TRY_DOWNLOAD] = 5 attempts,
    in order.  An attempt that cannot open the file or whose transfer fails
    is followed by the next attempt while the budget lasts; a transfer
    that completes ends the loop, whatever its status code.  A failed
    transfer and a status code of 400 or more delete the file, so when every
    attempt failed and one of them opened the file, no file is left; when
    none could open it, the disk is as before.  A transfer that completes
    with a status below 400 leaves the body.  No other file is touched and
    the function always returns. *)
Theorem download_retry_contract (w : world) (f url : string) (s e : Z) (d : disk) :
  let r := download w f url s e d in
  (length r.2 ≤ NUM_TRY_DOWNLOAD)%nat
  ∧ (∀ k a, r.2 !! k = Some a → a = transfer w url f s e k)
  ∧ (∀ k a, r.2 !! k = Some a → (S k < NUM_TRY_DOWNLOAD)%nat →
        (∀ c b, a ≠ TransferDone c b) → is_Some (r.2 !! S k))
  ∧ (∀ k c b, r.2 !! k = Some (TransferDone c b) → length r.2 = S k)
  ∧ (Forall (λ a, failed a = true) r.2 → Exists (λ a, a ≠ CannotOpen) r.2 →
        r.1 !! f = None)
  ∧ (Forall (λ a, a = CannotOpen) r.2 → r.1 = d)
  ∧ (∀ k c b, r.2 !! k = Some (TransferDone c b) →
        failed (TransferDone c b) = false → r.1 !! f = Some b)
  ∧ (∀ p, p ≠ f → r.1 !! p = d !! p).
Proof.
  unfold download. destruct (easy_init w f); cbv zeta.
  - generalize NUM_TRY_DOWNLOAD as n. intros n. split_and!.
    + apply download_loop_length.
    + intros k a H. by apply download_loop_log in H.
    + apply download_loop_next.
    + apply download_loop_done_last.
    + intros Hall Hex. apply download_loop_failed_absent; auto.
    + apply download_loop_unopened.
    + apply download_loop_success.
    + intros p Hp. by apply download_loop_other.
  - cbn [fst snd]. split_and!; try done.
    + simpl. lia.
    + intros _ H. by apply Exists_nil in H.
Qed.

(** Failed transfers only: every attempt of the budget is made and no file
    is left. *)
Lemma download_loop_gives_up (w : world) (f url : string) (s e : Z)
    (n i : nat) (d : disk) :
  (∀ k, (i ≤ k < i + n)%nat → ∃ wr, transfer w url f s e k = TransferFailed wr) →
  length (download_loop w f url s e n i d).2 = n
  ∧ (n ≠ 0%nat → (download_loop w f url s e n i d).1 !! f = None).
Proof.
  revert i d. induction n as [|n IH]; intros i d H; cbn [download_loop].
  { by split. }
  destruct (H i) as [wr ->]; [lia|].
  match goal with |- context [download_loop w f url s e n (S i) ?d1] =>
    destruct (IH (S i) d1) as [IH1 IH2]; [intros k Hk; apply H; lia|];
    pose proof (download_loop_unopened w f url s e n (S i) d1) as Hun;
    destruct (download_loop w f url s e n (S i) d1) as [d' log] eqn:El end.
  cbn [fst snd] in *. split; [by rewrite length_cons, IH1|]. intros _.
  destruct n as [|n]; [|by apply IH2].
  destruct log; [|done]. rewrite Hun; [|done]. apply written_then_removed.
Qed.

Lemma download_gives_up (w : world) (f url : string) (s e : Z) (d : disk) :
  easy_init w f = true →
  (∀ i, (i < NUM_TRY_DOWNLOAD)%nat → ∃ wr, transfer w url f s e i = TransferFailed wr) →
  length (download w f url s e d).2 = NUM_TRY_DOWNLOAD
  ∧ (download w f url s e d).1 !! f = None.
Proof.
  intros Hi H. unfold download. rewrite Hi.
  destruct (download_loop_gives_up w f url s e NUM_TRY_DOWNLOAD 0 d) as [H1 H2].
  - intros k Hk. apply H. lia.
  - split; [done|]. by apply H2.
Qed.

(** ** Splitting the file into ranges *)


(** What [split] decides when the number of parts drives the split
    ([chunk_size] unset). *)
Lemma split_by_count (S : Z) (o : options) :
  MIN_FILE_SIZE_FOR_PARALLEL ≤ S → chunk_size o < 0 →
  num_part (split S o) = (if num_part o <? 0 then num_thread o else num_part o)
  ∧ chunk_size (split S o) = S ÷ num_part (split S o)
  ∧ output_filename (split S o) = output_filename o
  ∧ url (split S o) = url o
  ∧ mode (split S o) = mode o
  ∧ part_index (split S o) = part_index o.
Proof.
  intros HS HC. unfold split.
  destruct (Z.ltb_spec S MIN_FILE_SIZE_FOR_PARALLEL); [lia|].
  destruct (Z.ltb_spec (chunk_size o) 0); [|lia].
  destruct (num_part o <? 0); cbn;
    match goal with |- context [if ?c then _ else _] => destruct c end; done.
Qed.

(** What [split] decides when the chunk size drives the split. *)
Lemma split_by_chunk (S : Z) (o : options) :
  MIN_FILE_SIZE_FOR_PARALLEL ≤ S → 0 ≤ chunk_size o → num_part o < 0 →
  chunk_size (split S o) = chunk_size o * 1000000
  ∧ num_part (split S o) = Cxx.to_int (S ÷ (chunk_size o * 1000000) + 1)
  ∧ output_filename (split S o) = output_filename o
  ∧ url (split S o) = url o
  ∧ mode (split S o) = mode o
  ∧ part_index (split S o) = part_index o.
Proof.
  intros HS HC HP. unfold split.
  destruct (Z.ltb_spec S MIN_FILE_SIZE_FOR_PARALLEL); [lia|].
  destruct (Z.ltb_spec (chunk_size o) 0); [lia|].
  destruct (Z.ltb_spec (num_part o) 0); [|lia]. cbn.
  match goal with |- context [if ?c then _ else _] => destruct c end; done.
Qed.

Lemma to_int_small (z : Z) : - 2 ^ 31 ≤ z < 2 ^ 31 → Cxx.to_int z = z.
Proof. intros H. unfold Cxx.to_int. rewrite Z.mod_small; lia. Qed.

(** The downloads of the parallel loop, one per index, in index order. *)
Lemma download_parts_events (w : world) (o : options) (S : Z)
    (n : nat) (i : Z) (d : disk) :
  (download_parts w o S n i d).2
  = (λ j, EvDownload (part_name (output_filename o) j)
                     (part_range S (num_part o) (chunk_size o) j).1
                     (part_range S (num_part o) (chunk_size o) j).2)
    <$> seqZ i (Z.of_nat n).
Proof.
  revert i d. induction n as [|n IH]; intros i d; [done|].
  cbn [download_parts].
  destruct (part_range S (num_part o) (chunk_size o) i) as [st en] eqn:E.
  match goal with |- context [download_parts w o S n (i + 1) ?d1] =>
    specialize (IH (i + 1) d1); destruct (download_parts w o S n (i + 1) d1) end.
  cbn [snd] in *. rewrite seqZ_cons by lia. rewrite fmap_cons, E. cbn [fst snd].
  f_equal. rewrite IH. f_equal. f_equal; lia.
Qed.



(** ** [merge_files] *)

Section merge_facts.

Variable w : world.
Variable out : string.

Local Abbreviation loop := (merge_loop out).

Lemma append_other (p : string) (data : list byte) (d : disk) :
  p ≠ out → Fs.append out data d !! p = d !! p.
Proof. intros Hp. unfold Fs.append. by rewrite lookup_insert_ne. Qed.

Lemma append_part (i : Z) (data : list byte) (d : disk) :
  Fs.append out data d !! part_name out i = d !! part_name out i.
Proof. apply append_other, part_name_ne. Qed.

(** The loop writes to the destination only. *)
Lemma merge_loop_other (n : nat) (i : Z) (good : bool) (d : disk) (p : string) :
  p ≠ out → (loop n i good d).1.1 !! p = d !! p.
Proof.
  intros Hp. revert i good d.
  induction n as [|n IH]; intros i good d; cbn [merge_loop]; [done|].
  destruct (d !! part_name out i) as [data|]; [|done].
  match goal with |- context [loop n (i + 1) ?g ?d1] =>
    specialize (IH (i + 1) g d1); destruct (loop n (i + 1) g d1) as [[d' ok] op] end.
  cbn [fst snd] in *. rewrite IH.
  destruct (good && _); [by apply append_other | done].
Qed.

(** The destination exists once it has been created. *)
Lemma merge_loop_destination (n : nat) (i : Z) (good : bool) (d : disk) :
  is_Some (d !! out) → is_Some ((loop n i good d).1.1 !! out).
Proof.
  revert i good d.
  induction n as [|n IH]; intros i good d Hd; cbn [merge_loop]; [done|].
  destruct (d !! part_name out i) as [data|]; [|done].
  match goal with |- context [loop n (i + 1) ?g ?d1] =>
    specialize (IH (i + 1) g d1); destruct (loop n (i + 1) g d1) as [[d' ok] op] end.
  cbn [fst snd] in *. apply IH.
  destruct (good && _); [|done]. unfold Fs.append. rewrite lookup_insert_eq. by eexists.
Qed.

(** Every part present and not empty: every part is opened, in index
    order, and its content is appended to the destination. *)
Lemma merge_loop_complete (n : nat) (i : Z) (d : disk) (acc : list byte) :
  d !! out = Some acc →
  (∀ j, i ≤ j < i + Z.of_nat n →
     ∃ data, d !! part_name out j = Some data ∧ data ≠ []) →
  (loop n i true d).1.2 = true
  ∧ (loop n i true d).2 = seqZ i (Z.of_nat n)
  ∧ (loop n i true d).1.1 !! out = Some (acc ++ parts_content d out i (Z.of_nat n)).
Proof.
  revert i d acc. induction n as [|n IH]; intros i d acc Hacc Hparts.
  { cbn. unfold parts_content. cbn. by rewrite app_nil_r. }
  cbn [merge_loop].
  destruct (Hparts i) as (data & Hdata & Hne); [lia|]. rewrite Hdata.
  rewrite bool_decide_eq_false_2 by done. cbn [andb negb].
  specialize (IH (i + 1) (Fs.append out data d) (acc ++ data)).
  destruct IH as (IH1 & IH2 & IH3).
  { unfold Fs.append. by rewrite lookup_insert_eq, Hacc. }
  { intros j Hj. rewrite append_part. apply Hparts. lia. }
  destruct (loop n (i + 1) true (Fs.append out data d)) as [[d' ok] op].
  cbn [fst snd] in *. split_and!; [done | |].
  - rewrite (seqZ_cons i) by lia. rewrite IH2. f_equal. f_equal; lia.
  - rewrite IH3. f_equal. unfold parts_content.
    rewrite (seqZ_cons i (Z.of_nat (S n))) by lia. cbn. rewrite Hdata. cbn.
    rewrite <- app_assoc. f_equal.
    replace (Z.pred (Z.of_nat (S n))) with (Z.of_nat n) by lia.
    replace (Z.succ i) with (i + 1) by lia.
    f_equal. f_equal. apply list_fmap_ext. intros ? j _. by rewrite append_part.
Qed.

(** A part that cannot be opened: the loop stops there, and the parts
    after it are not opened. *)
Lemma merge_loop_missing (n : nat) (i : Z) (good : bool) (d : disk) (k : Z) :
  i ≤ k < i + Z.of_nat n →
  d !! part_name out k = None →
  (∀ j, i ≤ j < k → is_Some (d !! part_name out j)) →
  (loop n i good d).1.2 = false
  ∧ (loop n i good d).2 = seqZ i (k - i + 1).
Proof.
  revert i good d. induction n as [|n IH]; intros i good d Hk Hnone Hsome; [lia|].
  cbn [merge_loop]. destruct (decide (i = k)) as [->|Hik].
  - rewrite Hnone. cbn. split; [done|].
    replace (k - k + 1) with 1 by lia. done.
  - destruct (Hsome i) as [data Hdata]; [lia|]. rewrite Hdata.
    match goal with |- context [loop n (i + 1) ?g ?d1] =>
      specialize (IH (i + 1) g d1); destruct IH as [IH1 IH2];
      [lia | | | destruct (loop n (i + 1) g d1) as [[d' ok] op]] end.
    + destruct (good && _); [by rewrite append_part | done].
    + intros j Hj. destruct (good && _); [rewrite append_part|]; apply Hsome; lia.
    + cbn [fst snd] in *. split; [done|].
      rewrite (seqZ_cons i) by lia. rewrite IH2. f_equal. f_equal; lia.
Qed.

End merge_facts.

(** [merge_files] writes to the destination only. *)
Lemma merge_files_other (w : world) (out : string) (P : Z) (d : disk) (p : string) :
  p ≠ out → (merge_files w out P d).1.1 !! p = d !! p.
Proof.
  intros Hp. unfold merge_files. destruct (creatable w out); cbn [negb]; [|done].
  rewrite merge_loop_other by done. unfold Fs.truncate. by apply lookup_insert_ne.
Qed.

Lemma seqZ_to_nat (i n : Z) : seqZ i (Z.of_nat (Z.to_nat n)) = seqZ i n.
Proof. unfold seqZ. by rewrite Nat2Z.id. Qed.

(** C5, as stated, fails.  When the destination cannot be created,
    [merge_files] returns [false] although every part can be opened; no
    part is opened and the disk is unchanged. *)
Lemma merge_files_destination_refused :
  let d : disk := <["f.part0" := [x01]]> (<["f.part1" := [x02]]> ∅) in
  let r := merge_files readonly_world "f" 2 d in
  is_Some (d !! part_name "f" 0) ∧ is_Some (d !! part_name "f" 1)
  ∧ r.1.2 = false ∧ r.2 = [] ∧ r.1.1 !! "f" = None.
Proof. vm_compute. split_and!; by eauto. Qed.

(** An empty part puts the destination stream into the failed state, and
    the parts after it are opened but not written: the destination is not
    the concatenation of the parts although [merge_files] returns [true]. *)
Lemma merge_files_after_empty_part :
  let d : disk := <["f.part0" := []]> (<["f.part1" := [x02]]> ∅) in
  let r := merge_files (plain_world 2 []) "f" 2 d in
  r.1.2 = true ∧ r.2 = [0; 1] ∧ r.1.1 !! "f" = Some []
  ∧ parts_content d "f" 0 2 = [x02].
Proof. vm_compute. done. Qed.

(** C5, amended.  [merge_files] returns [false] at once, with the disk
    unchanged, when the destination cannot be created.  Otherwise it opens
    the parts in index order.  When every part is on disk and none is
    empty, it opens all of them, returns [true] and leaves in the destination
    the contents of parts [0 .. P-1] one after the other.  When part [k]
    is the first that cannot be opened, it has opened parts [0 .. k] and no
    later one, returns [false] and leaves the destination on disk.  No file
    but the destination is changed. *)
Theorem merge_files_contract (w : world) (out : string) (P : Z) (d : disk) :
  let r := merge_files w out P d in
  (creatable w out = false → r = (d, false, []))
  ∧ (creatable w out = true →
       (∀ i, 0 ≤ i < P → ∃ data, d !! part_name out i = Some data ∧ data ≠ []) →
       r.1.2 = true ∧ r.2 = seqZ 0 P
       ∧ r.1.1 !! out = Some (parts_content d out 0 P))
  ∧ (creatable w out = true →
       ∀ k, 0 ≤ k < P → d !! part_name out k = None →
       (∀ i, 0 ≤ i < k → is_Some (d !! part_name out i)) →
       r.1.2 = false ∧ r.2 = seqZ 0 (k + 1) ∧ is_Some (r.1.1 !! out))
  ∧ (∀ p, p ≠ out → r.1.1 !! p = d !! p).
Proof.
  unfold merge_files. destruct (creatable w out); cbn [negb]; cbv zeta.
  - assert (Hpart : ∀ i, Fs.truncate out d !! part_name out i = d !! part_name out i).
    { intros i. unfold Fs.truncate. apply lookup_insert_ne. intros E.
      symmetry in E. by apply part_name_ne in E. }
    split_and!; [done | | |].
    + intros _ Hparts.
      destruct (merge_loop_complete out (Z.to_nat P) 0 (Fs.truncate out d) [])
        as (H1 & H2 & H3).
      * unfold Fs.truncate. apply lookup_insert_eq.
      * intros j Hj. rewrite Hpart. apply Hparts. lia.
      * rewrite seqZ_to_nat in H2. split_and!; [done | done |].
        rewrite H3. cbn [app]. f_equal. unfold parts_content.
        rewrite seqZ_to_nat. f_equal. apply list_fmap_ext. intros ? j _.
        by rewrite Hpart.
    + intros _ k Hk Hnone Hsome.
      destruct (merge_loop_missing out (Z.to_nat P) 0 true (Fs.truncate out d) k)
        as (H1 & H2).
      * lia.
      * by rewrite Hpart.
      * intros j Hj. rewrite Hpart. by apply Hsome.
      * replace (k - 0 + 1) with (k + 1) in H2 by lia. split_and!; [done | done |].
        apply merge_loop_destination. unfold Fs.truncate.
        rewrite lookup_insert_eq. by eexists.
    + intros p Hp. rewrite merge_loop_other by done.
      unfold Fs.truncate. by apply lookup_insert_ne.
  - split_and!; done.
Qed.

(** ** Check, merge, remove *)

Lemma remove_parts_none (f : string) (n : nat) (i : Z) (d : disk) (p : string) :
  d !! p = None → remove_parts f n i d !! p = None.
Proof.
  revert i d. induction n as [|n IH]; intros i d Hp; cbn [remove_parts]; [done|].
  apply IH. unfold Fs.remove. by apply lookup_delete_None; right.
Qed.

(** The loop deletes every part it is asked to delete ... *)
Lemma remove_parts_gone (f : string) (n : nat) (i : Z) (d : disk) (j : Z) :
  i ≤ j < i + Z.of_nat n → remove_parts f n i d !! part_name f j = None.
Proof.
  revert i d. induction n as [|n IH]; intros i d Hj; cbn [remove_parts]; [lia|].
  destruct (decide (i = j)) as [->|Hne].
  - apply remove_parts_none. unfold Fs.remove. apply lookup_delete_eq.
  - apply IH. lia.
Qed.

(** ... and nothing that is not a part. *)
Lemma remove_parts_other (f : string) (n : nat) (i : Z) (d : disk) (p : string) :
  (∀ j, p ≠ part_name f j) → remove_parts f n i d !! p = d !! p.
Proof.
  intros Hp. revert i d. induction n as [|n IH]; intros i d; cbn [remove_parts]; [done|].
  rewrite IH. unfold Fs.remove. apply lookup_delete_ne. intros E. by apply (Hp i).
Qed.

(** C6.  Cleanup.  Let [check_files] return the verdict [v] and let the
    merge be attempted ([v] is [1], complete, or [-1], undersized).
    - [v = 1] and the merge succeeds: the run exits with 0, every part file
      is deleted and the destination stays as the merge left it.
    - [v = -1] and the merge succeeds: the run exits with 0 and every part
      file is on disk with its content.
    - The merge fails: the run exits with 1, the destination is deleted and
      every part file is on disk with its content. *)
Theorem cleanup_correct (w : world) (out : string) (P C S : Z) (d : disk) (v : Z) :
  check_files d out P (Cxx.to_uintmax C) (Cxx.to_uintmax (S - (P - 1) * C))
    = Cxx.Returns v →
  let m := merge_files w out P d in
  let r := check_merge_remove w out P C S d in
  (v = 1 → m.1.2 = true →
     status r = Exit 0
     ∧ (∀ i, 0 ≤ i < P → disk_after r !! part_name out i = None)
     ∧ disk_after r !! out = m.1.1 !! out)
  ∧ (v = -1 → m.1.2 = true →
       status r = Exit 0
       ∧ (∀ i, 0 ≤ i < P → is_Some (d !! part_name out i)
                            ∧ disk_after r !! part_name out i = d !! part_name out i))
  ∧ (v ≠ 0 → m.1.2 = false →
       status r = Exit 1
       ∧ disk_after r !! out = None
       ∧ (∀ i, 0 ≤ i < P → is_Some (d !! part_name out i)
                            ∧ disk_after r !! part_name out i = d !! part_name out i)).
Proof.
  intros Hv m r.
  pose proof (check_files_returns_present _ _ _ _ _ _ Hv) as Hpresent.
  pose proof (merge_files_other w out P d) as Hother. fold m in Hother.
  subst r. unfold check_merge_remove. rewrite Hv.
  subst m. destruct (merge_files w out P d) as [[d' ok] op]. cbn [fst snd] in *.
  split_and!.
  - intros -> ->. cbn. split_and!; [done | |].
    + intros i Hi. apply remove_parts_gone. lia.
    + apply remove_parts_other. intros j E. symmetry in E. by apply part_name_ne in E.
  - intros -> ->. cbn. split; [done|]. intros i Hi. split; [by apply Hpresent|].
    apply Hother, part_name_ne.
  - intros Hv0 ->. destruct (Z.eqb_spec v 0) as [|_]; [done|]. cbn.
    split_and!; [done | apply lookup_delete_eq |].
    intros i Hi. split; [by apply Hpresent|].
    unfold Fs.remove. rewrite lookup_delete_ne.
    + apply Hother, part_name_ne.
    + intros E. symmetry in E. by apply part_name_ne in E.
Qed.

(** Two complete parts of one byte: merged, then deleted. *)
Lemma cleanup_correct_witness :
  let d : disk := <["f.part0" := [x01]]> (<["f.part1" := [x02]]> ∅) in
  let r := check_merge_remove (plain_world 2 []) "f" 2 1 2 d in
  status r = Exit 0
  ∧ (∀ i, 0 ≤ i < 2 → disk_after r !! part_name "f" i = None)
  ∧ disk_after r !! "f" = Some [x01; x02].
Proof.
  intros d r.
  destruct (cleanup_correct (plain_world 2 []) "f" 2 1 2 d 1) as (H1 & _ & _).
  - vm_compute. reflexivity.
  - destruct H1 as (Hs & Hparts & Hout).
    + reflexivity.
    + vm_compute. reflexivity.
    + split; [exact Hs|]. split; [exact Hparts|].
      subst r. rewrite Hout. vm_compute. reflexivity.
Defined.

(** ** The option loop *)

Lemma initial_options_sane : sane initial_options.
Proof. split; cbn; unfold DEFAULT_NUM_THREADS; lia. Qed.

Local Ltac sane_step :=
  match goal with
  | H : sane _ |- sane _ =>
      destruct H; split; cbn in *; unfold DEFAULT_NUM_THREADS;
      repeat match goal with |- context [if ?c then _ else _] =>
        let E := fresh in destruct c eqn:E end;
      repeat match goal with
        | H : (_ =? _) = false |- _ => apply Z.eqb_neq in H
        | H : (_ =? _) = true |- _ => apply Z.eqb_eq in H
        | H : (_ <? _) = true |- _ => apply Z.ltb_lt in H
        | H : (_ <? _) = false |- _ => apply Z.ltb_ge in H
        end;
      lia
  end.

(** The numbers the option loop reads are not negative and fit an [int]. *)
Lemma abs_range (n m : Z) :
  - 2 ^ 31 ≤ n < 2 ^ 31 → Cxx.abs n = Some m → 0 ≤ m < 2 ^ 31.
Proof.
  unfold Cxx.abs. intros Hn. destruct (Z.eqb_spec n (- 2 ^ 31)); [done|].
  intros [= <-]. lia.
Qed.

Lemma abs_atoi_range (v : string) (m : Z) :
  Cxx.abs_atoi v = Some m → 0 ≤ m < 2 ^ 31.
Proof.
  unfold Cxx.abs_atoi, Cxx.atoi.
  destruct (_ && _) eqn:E; [|done]. apply andb_true_iff in E as [E1 E2].
  apply Z.leb_le in E1. apply Z.ltb_lt in E2. by apply abs_range.
Qed.

Lemma to_int_range (z : Z) : - 2 ^ 31 ≤ Cxx.to_int z < 2 ^ 31.
Proof.
  unfold Cxx.to_int. pose proof (Z.mod_pos_bound (z + 2 ^ 31) (2 ^ 32) ltac:(lia)).
  lia.
Qed.

Lemma abs_atoll_range (v : string) (m : Z) :
  Cxx.abs_atoll v = Some m → 0 ≤ m < 2 ^ 31.
Proof.
  unfold Cxx.abs_atoll. destruct (Cxx.atoll v) as [n|]; [|done].
  apply abs_range, to_int_range.
Qed.

Lemma parse_args_sane_bounded (n : nat) :
  ∀ (args : list string) (o o' : options),
    (length args ≤ n)%nat → sane o → parse_args o args = Go o' → sane o'.
Proof.
  induction n as [|n IH]; intros args o o' Hlen Ho.
  { destruct args; [|simpl in Hlen; lia]. by intros [= <-]. }
  destruct args as [|arg rest]; [by intros [= <-]|].
  simpl in Hlen. cbn [parse_args].
  repeat (match goal with |- context [if is_opt ?a ?b ?c then _ else _] =>
            destruct (is_opt a b c) end);
    try (destruct rest as [|v rest']; [done|]; simpl in Hlen);
    try (match goal with |- context [Cxx.abs_atoi ?v] =>
           let Hn := fresh "Hn" in
           destruct (Cxx.abs_atoi v) as [m|] eqn:Hn;
           [apply abs_atoi_range in Hn | done] end);
    try (match goal with |- context [Cxx.abs_atoll ?v] =>
           let Hn := fresh "Hn" in
           destruct (Cxx.abs_atoll v) as [m|] eqn:Hn;
           [apply abs_atoll_range in Hn | done] end);
    try done;
    try (apply IH; [lia | sane_step]).
  - destruct (Z.ltb_spec m 0); [done|].
    apply IH; [lia | sane_step].
  - destruct rest; [|done]. intros [= <-]. sane_step.
Qed.

(** Every set of options the loop accepts is [sane]: at most one of the
    number of parts and the chunk size is set, and a part index is never
    negative. *)
Lemma parse_args_sane (args : list string) (o : options) :
  parse_args initial_options args = Go o → sane o.
Proof.
  apply (parse_args_sane_bounded (length args)); [done|]. apply initial_options_sane.
Qed.

(** A number that [int] holds and that is not [INT_MIN] is read as its
    absolute value. *)
Lemma abs_atoi_value (v : string) (n : Z) :
  Cxx.atoi v = Some n → n ≠ - 2 ^ 31 → Cxx.abs_atoi v = Some (Z.abs n).
Proof.
  intros Hn Hne. unfold Cxx.abs_atoi, Cxx.abs. rewrite Hn.
  by destruct (Z.eqb_spec n (- 2 ^ 31)).
Qed.

(** For [-cs] the number is first made an [int]. *)
Lemma abs_atoll_value (v : string) (n : Z) :
  Cxx.atoll v = Some n → Cxx.to_int n ≠ - 2 ^ 31 →
  Cxx.abs_atoll v = Some (Z.abs (Cxx.to_int n)).
Proof.
  intros Hn Hne. unfold Cxx.abs_atoll, Cxx.abs. rewrite Hn.
  by destruct (Z.eqb_spec (Cxx.to_int n) (- 2 ^ 31)).
Qed.

(** Decide the tests of the option loop on a given argument. *)
Ltac decide_opts :=
  repeat match goal with
    | |- context [is_opt ?a ?b ?c] =>
        let t := eval vm_compute in (is_opt a b c) in
        change (is_opt a b c) with t; cbv iota
    end.

(** The step of the option loop at [-nth]: 0 gives the default, the loop
    goes on. *)
Lemma parse_args_num_thread (o : options) (arg v : string) (rest : list string)
    (n : Z) :
  arg = "-nth" ∨ arg = "--num-thread" →
  Cxx.atoi v = Some n → n ≠ - 2 ^ 31 →
  parse_args o (arg :: v :: rest)
  = parse_args (set_num_thread (if n =? 0 then DEFAULT_NUM_THREADS else Z.abs n) o)
               rest.
Proof.
  intros Harg Hn Hne. pose proof (abs_atoi_value v n Hn Hne) as Habs.
  assert (E : (if Z.abs n =? 0 then DEFAULT_NUM_THREADS else Z.abs n)
              = (if n =? 0 then DEFAULT_NUM_THREADS else Z.abs n)).
  { destruct (Z.eqb_spec (Z.abs n) 0), (Z.eqb_spec n 0); lia. }
  destruct Harg as [-> | ->]; cbn [parse_args]; decide_opts; by rewrite Habs, E.
Qed.

(** The step at [-np]: 0 leaves the number of parts unset, the chunk size
    is unset, the loop goes on. *)
Lemma parse_args_num_part (o : options) (arg v : string) (rest : list string)
    (n : Z) :
  arg = "-np" ∨ arg = "--num-part" →
  Cxx.atoi v = Some n → n ≠ - 2 ^ 31 →
  parse_args o (arg :: v :: rest)
  = parse_args (set_chunk_size (-1)
                  (set_num_part (if n =? 0 then -1 else Z.abs n) o)) rest.
Proof.
  intros Harg Hn Hne. pose proof (abs_atoi_value v n Hn Hne) as Habs.
  assert (E : (if Z.abs n =? 0 then -1 else Z.abs n)
              = (if n =? 0 then -1 else Z.abs n)).
  { destruct (Z.eqb_spec (Z.abs n) 0), (Z.eqb_spec n 0); lia. }
  destruct Harg as [-> | ->]; cbn [parse_args]; decide_opts; by rewrite Habs, E.
Qed.

(** The step at [-cs]: a value below 10 leaves the chunk size unset, the
    number of parts is unset, the loop goes on. *)
Lemma parse_args_chunk_size (o : options) (arg v : string) (rest : list string)
    (n : Z) :
  arg = "-cs" ∨ arg = "--chunk-size" →
  Cxx.atoll v = Some n → Cxx.to_int n ≠ - 2 ^ 31 →
  let c := Z.abs (Cxx.to_int n) in
  parse_args o (arg :: v :: rest)
  = parse_args (set_num_part (-1)
                  (set_chunk_size (if c <? 10 then -1 else c) o)) rest.
Proof.
  intros Harg Hn Hne c. pose proof (abs_atoll_value v n Hn Hne) as Habs.
  destruct Harg as [-> | ->]; cbn [parse_args]; decide_opts; by rewrite Habs.
Qed.

(** ** [main] *)

(** [split] changes neither the url, nor the output name, nor the part
    index. *)
Lemma split_keeps (S : Z) (o : options) :
  url (split S o) = url o
  ∧ output_filename (split S o) = output_filename o
  ∧ part_index (split S o) = part_index o.
Proof.
  unfold split.
  repeat match goal with |- context [if ?c then _ else _] => destruct c end; done.
Qed.

(** It keeps the mode of a file that is large enough to be split. *)
Lemma split_mode (S : Z) (o : options) :
  MIN_FILE_SIZE_FOR_PARALLEL ≤ S → mode (split S o) = mode o.
Proof.
  intros HS. unfold split.
  destruct (Z.ltb_spec S MIN_FILE_SIZE_FOR_PARALLEL); [lia|].
  repeat match goal with |- context [if ?c then _ else _] => destruct c end; done.
Qed.

(** Below the threshold, the options do not matter. *)
Lemma split_small (S : Z) (o : options) :
  S < MIN_FILE_SIZE_FOR_PARALLEL →
  mode (split S o) = -1 ∧ num_part (split S o) = 1 ∧ chunk_size (split S o) = S.
Proof.
  intros HS. unfold split.
  destruct (Z.ltb_spec S MIN_FILE_SIZE_FOR_PARALLEL); [|lia]. cbn.
  by rewrite Z.quot_1_r.
Qed.

Lemma default_output_keeps (o : options) :
  url (default_output o) = url o
  ∧ mode (default_output o) = mode o
  ∧ part_index (default_output o) = part_index o
  ∧ num_part (default_output o) = num_part o
  ∧ chunk_size (default_output o) = chunk_size o
  ∧ num_thread (default_output o) = num_thread o.
Proof. unfold default_output. by destruct (bool_decide _). Qed.

Lemma default_output_sane (o : options) : sane o → sane (default_output o).
Proof. unfold default_output. destruct (bool_decide _); [|done]. by intros []. Qed.

Lemma filter_downloads_all (l : list event) :
  Forall (λ ev, is_download ev = true) l →
  filter (λ ev, is_download ev = true) l = l.
Proof.
  induction 1 as [|ev l Hev _ IH]; [done|]. by rewrite filter_cons_True, IH.
Qed.

Lemma filter_downloads_none (l : list event) :
  Forall (λ ev, is_download ev = false) l →
  filter (λ ev, is_download ev = true) l = [].
Proof.
  induction 1 as [|ev l Hev _ IH]; [done|].
  rewrite filter_cons_False; [done | by rewrite Hev].
Qed.

(** The check, merge and remove block downloads nothing. *)
Lemma check_merge_remove_events (w : world) (out : string) (P C S : Z) (d : disk) :
  Forall (λ ev, is_download ev = false) (events (check_merge_remove w out P C S d)).
Proof.
  unfold check_merge_remove. destruct (check_files _ _ _ _ _) as [v|]; cbn.
  - destruct (v =? 0); cbn.
    + repeat constructor.
    + destruct (merge_files w out P d) as [[d' ok] op]. cbn. repeat constructor.
  - repeat constructor.
Qed.

(** The number of parts that a [sane] set of options leads to is at least
    one, for a file below 2^53 bytes. *)
Lemma split_num_part_pos (S : Z) (o : options) :
  sane o → 1 ≤ S < 2 ^ 53 → 1 ≤ num_part (split S o).
Proof.
  intros Ho HS.
  destruct (Z.lt_ge_cases S MIN_FILE_SIZE_FOR_PARALLEL) as [Hsmall|Hbig].
  { destruct (split_small S o Hsmall) as (_ & -> & _). lia. }
  destruct Ho. destruct (Z.lt_ge_cases (chunk_size o) 0) as [Hc|Hc].
  - destruct (split_by_count S o Hbig Hc) as (-> & _).
    destruct (Z.ltb_spec (num_part o) 0); lia.
  - assert (Hn : num_part o < 0) by lia.
    destruct (split_by_chunk S o Hbig Hc Hn) as (_ & -> & _).
    assert (10 ≤ chunk_size o) by lia.
    rewrite Z.quot_div_nonneg by lia.
    pose proof (Z.div_pos S (chunk_size o * 1000000) ltac:(lia) ltac:(lia)).
    assert (S / (chunk_size o * 1000000) ≤ S / 10000000).
    { apply Z.div_le_compat_l; lia. }
    assert (S / 10000000 < 2 ^ 53 / 10000000 + 1).
    { pose proof (Z.div_le_mono S (2 ^ 53) 10000000 ltac:(lia) ltac:(lia)). lia. }
    assert (2 ^ 53 / 10000000 + 1 < 2 ^ 31 - 1) by (vm_compute; done).
    rewrite to_int_small; lia.
Qed.

(** [main] from the probe on, when the probe gives a size. *)
Lemma main_go_probed (w : world) (o : options) (d : disk) :
  url o ≠ "" →
  let S := get_file_size w (url o) in
  0 < S →
  let o2 := split S (default_output o) in
  main_go w o d
  = if part_index o >? num_part o2 - 1 then Run (Exit 1) d [EvProbe (url o)]
    else let '(d', dl) := download_stage w o2 S d in
         if (mode o2 =? 0) || (mode o2 =? 2)
         then let r := check_merge_remove w (output_filename o2) (num_part o2)
                                          (chunk_size o2) S d' in
              Run (status r) (disk_after r) (EvProbe (url o) :: dl ++ events r)
         else Run (Exit 0) d' (EvProbe (url o) :: dl).
Proof.
  intros Hurl S HS o2.
  destruct (split_keeps S (default_output o)) as (Hu & Hout & Hi).
  destruct (default_output_keeps o) as (Hu1 & Hm1 & Hi1 & _).
  fold o2 in Hu, Hout, Hi.
  unfold main_go. rewrite bool_decide_eq_false_2 by done.
  cbv zeta. rewrite Hu1. fold S.
  destruct (Z.leb_spec S 0); [lia|]. fold o2. by rewrite Hi, Hi1, Hu, Hu1.
Qed.


(** C9, as stated, fails.  The probe reports 500 bytes and the command
    line asks for the single part of index 1: [split] plans one part, the
    index check of [main] refuses the index, and the run exits with 1 after
    the probe without a call of [download]. *)
Lemma below_threshold_index_refused :
  let w := plain_world 500 [x01] in
  let argv := ["co-curl"; "-s"; "1"; "http://h/f"] in
  get_file_size w "http://h/f" = 500
  ∧ main w argv ∅ = Run (Exit 1) ∅ [EvProbe "http://h/f"]
  ∧ downloads (main w argv ∅) = [].
Proof. intros w argv. split_and!; reflexivity. Qed.

(** C9, amended.  Below-threshold shortcut.  For options with a url and a
    probed size [1 <= S < 1000], whatever the number of parts, the chunk
    size and the mode that the options ask for, [split] plans one part
    ([mode = -1], [num_part = 1], [chunk_size = S]) whose range is
    [0 .. S-1].  When the part index of the options is at most 0 (no
    single part was asked for, or part 0), the run probes, downloads the
    range [0 .. S-1] to the output file in one call of [download], and
    exits with 0 without checking or merging.  When the part index is 1 or
    more, the run exits with 1 after the probe, the disk untouched and
    [download] not called. *)
Theorem below_threshold_single_part (w : world) (o : options) (d : disk) :
  url o ≠ "" →
  let S := get_file_size w (url o) in
  1 ≤ S < MIN_FILE_SIZE_FOR_PARALLEL →
  let o1 := default_output o in
  let o2 := split S o1 in
  mode o2 = -1 ∧ num_part o2 = 1 ∧ chunk_size o2 = S
  ∧ part_range S (num_part o2) (chunk_size o2) 0 = (0, S - 1)
  ∧ (part_index o ≤ 0 →
       main_go w o d
       = Run (Exit 0)
             (download w (output_filename o1) (url o) 0 (S - 1) d).1
             [EvProbe (url o); EvDownload (output_filename o1) 0 (S - 1)])
  ∧ (1 ≤ part_index o → main_go w o d = Run (Exit 1) d [EvProbe (url o)]).
Proof.
  intros Hurl S HS o1 o2.
  destruct (split_small S o1 ltac:(lia)) as (Hm & Hp & Hc).
  destruct (split_keeps S o1) as (Hu & Ho & Hi).
  destruct (default_output_keeps o) as (Hu1 & _ & Hi1 & _).
  fold o2 in Hm, Hp, Hc, Hu, Ho, Hi. fold o1 in Hu1, Hi1.
  pose proof (main_go_probed w o d Hurl ltac:(lia)) as Hmain. cbv zeta in Hmain.
  fold S o1 o2 in Hmain. rewrite Hp in Hmain.
  split_and!; try done.
  - rewrite Hp, Hc. done.
  - intros Hidx. rewrite Hmain.
    destruct (Z.gtb_spec (part_index o) (1 - 1)); [lia|].
    unfold download_stage. rewrite Hm, Ho, Hu, Hu1. cbn. done.
  - intros Hidx. rewrite Hmain.
    by destruct (Z.gtb_spec (part_index o) (1 - 1)); [|lia].
Qed.

(** A file of 500 bytes, asked for in four parts. *)
Lemma below_threshold_single_part_witness :
  let w := plain_world 500 [x01] in
  let o := set_url "http://h/f" (set_num_part 4 initial_options) in
  events (main_go w o ∅) = [EvProbe "http://h/f"; EvDownload "f" 0 499]
  ∧ status (main_go w o ∅) = Exit 0.
Proof.
  intros w o.
  destruct (below_threshold_single_part w o ∅) as (_ & _ & _ & _ & Hrun & _).
  - discriminate.
  - vm_compute. split; [discriminate | reflexivity].
  - rewrite Hrun.
    + split; reflexivity.
    + vm_compute. discriminate.
Defined.



(** ** Merge-only runs *)




(** ** Split parameters *)

(** C8, as stated, fails.  A number of parts of 0 is replaced by the
    default and the file is downloaded in eight parts; with 125 parts
    for 1000 bytes the computed chunk size is 8, below 10, and all 125
    parts are downloaded; a chunk size of 5 is discarded and the file is
    downloaded in eight parts.  Each of these runs exits with 0. *)
Lemma split_parameters_accepted :
  let w := plain_world 1000 [x01] in
  let zero := main w ["co-curl"; "-np"; "0"; "http://h/f"] ∅ in
  let many := main w ["co-curl"; "-np"; "125"; "http://h/f"] ∅ in
  let tiny := main w ["co-curl"; "-cs"; "5"; "http://h/f"] ∅ in
  (length (downloads zero) = 8%nat ∧ status zero = Exit 0)
  ∧ (chunk_size (split 1000 (set_num_part 125 initial_options)) = 8
     ∧ length (downloads many) = 125%nat ∧ status many = Exit 0)
  ∧ (length (downloads tiny) = 8%nat ∧ status tiny = Exit 0).
Proof. vm_compute. done. Qed.

Lemma download_parts_all_downloads (w : world) (o : options) (S : Z)
    (n : nat) (i : Z) (d : disk) :
  Forall (λ ev, is_download ev = true) (download_parts w o S n i d).2
  ∧ length (download_parts w o S n i d).2 = n.
Proof.
  rewrite download_parts_events. split.
  - apply Forall_fmap, Forall_forall. done.
  - rewrite length_fmap, length_seqZ. lia.
Qed.

(** C8, amended.  No split parameter makes a run fail.  In the option
    loop, the number [n] that [atoi] reads after [-np] (any [int] but
    [INT_MIN]) is replaced by its absolute value, and discarded when it is
    0; the number that [atoll] reads after [-cs] is made an [int],
    replaced by its absolute value, and discarded when that is below 10;
    either way the loop goes on with the next argument.  So the options
    handed on have a number of parts that is unset or at least 1, a chunk
    size that is unset or at least 10, and at most one of the two.  The
    chunk size computed from the number of parts, [S / num_part], is not
    checked.  A run in the default mode ([mode = 0]: neither a single part
    nor a merge was asked for) with a url whose probe gives a size
    [1 <= S < 2^53] reaches the download block and calls [download] once
    for each of its [num_part >= 1] parts (for a file of 1000 bytes or
    more: once for each index [0 .. num_part - 1], with the range of that
    index). *)
Theorem split_parameters_not_fatal (w : world) (argv : list string)
    (o : options) (d : disk) :
  parse_args initial_options (tail argv) = Go o →
  url o ≠ "" →
  mode o = 0 →
  let S := get_file_size w (url o) in
  1 ≤ S < 2 ^ 53 →
  let o2 := split S (default_output o) in
  let dl := (download_stage w o2 S d).2 in
  (∀ o0 arg v rest n,
     arg = "-np" ∨ arg = "--num-part" →
     Cxx.atoi v = Some n → n ≠ - 2 ^ 31 →
     parse_args o0 (arg :: v :: rest)
     = parse_args (set_chunk_size (-1)
                     (set_num_part (if n =? 0 then -1 else Z.abs n) o0)) rest)
  ∧ (∀ o0 arg v rest n,
       arg = "-cs" ∨ arg = "--chunk-size" →
       Cxx.atoll v = Some n → Cxx.to_int n ≠ - 2 ^ 31 →
       let c := Z.abs (Cxx.to_int n) in
       parse_args o0 (arg :: v :: rest)
       = parse_args (set_num_part (-1)
                       (set_chunk_size (if c <? 10 then -1 else c) o0)) rest)
  ∧ (num_part o = -1 ∨ 1 ≤ num_part o)
  ∧ (chunk_size o = -1 ∨ 10 ≤ chunk_size o)
  ∧ (num_part o = -1 ∨ chunk_size o = -1)
  ∧ (MIN_FILE_SIZE_FOR_PARALLEL ≤ S → chunk_size o = -1 →
       chunk_size o2 = S ÷ num_part o2)
  ∧ 1 ≤ num_part o2
  ∧ length dl = Z.to_nat (num_part o2)
  ∧ Forall (λ ev, is_download ev = true) dl
  ∧ (MIN_FILE_SIZE_FOR_PARALLEL ≤ S →
       dl = (λ j, EvDownload (part_name (output_filename o2) j)
                    (part_range S (num_part o2) (chunk_size o2) j).1
                    (part_range S (num_part o2) (chunk_size o2) j).2)
            <$> seqZ 0 (num_part o2))
  ∧ ∃ rest, events (main w argv d) = EvProbe (url o) :: dl ++ rest.
Proof.
  intros Hparse Hurl Hmode S HS o2 dl.
  pose proof (parse_args_sane _ o Hparse) as Ho.
  pose proof (default_output_sane o Ho) as Ho1.
  pose proof (split_num_part_pos S (default_output o) Ho1 HS) as HP. fold o2 in HP.
  destruct (default_output_keeps o) as (_ & Hm1 & Hi1 & _ & Hc1 & _).
  pose proof (main_go_probed w o d Hurl ltac:(lia)) as Hmain. cbv zeta in Hmain.
  fold S o2 in Hmain.
  assert (Hidx : part_index o = -1) by by apply Ho.
  assert (Hdl : length dl = Z.to_nat (num_part o2)
                ∧ Forall (λ ev, is_download ev = true) dl).
  { subst dl. destruct (Z.lt_ge_cases S MIN_FILE_SIZE_FOR_PARALLEL) as [Hsmall|Hbig].
    - destruct (split_small S (default_output o) Hsmall) as (Hm & Hp & _).
      fold o2 in Hm, Hp. unfold download_stage. rewrite Hm, Hp. cbn.
      split; [done | by repeat constructor].
    - assert (Hm2 : mode o2 = 0).
      { unfold o2. rewrite split_mode by done. by rewrite Hm1. }
      unfold download_stage. rewrite Hm2. cbn.
      destruct (download_parts_all_downloads w o2 S (Z.to_nat (num_part o2)) 0 d).
      done. }
  destruct Hdl as [Hlen Hall]. destruct Ho. split_and!; try done.
  - intros o0 arg v rest n. apply parse_args_num_part.
  - intros o0 arg v rest n. apply parse_args_chunk_size.
  - intros Hbig Hc.
    by destruct (split_by_count S (default_output o) Hbig ltac:(lia)) as (_ & ? & _).
  - intros Hbig. subst dl.
    assert (Hm2 : mode o2 = 0).
    { unfold o2. rewrite split_mode by done. by rewrite Hm1. }
    unfold download_stage. rewrite Hm2. cbn.
    by rewrite download_parts_events, Z2Nat.id by lia.
  - unfold main. rewrite Hparse, Hmain.
    destruct (Z.gtb_spec (part_index o) (num_part o2 - 1)); [lia|].
    subst dl. destruct (download_stage w o2 S d) as [d' dl'].
    destruct ((mode o2 =? 0) || (mode o2 =? 2)); cbn.
    + by eexists.
    + exists []. by rewrite app_nil_r.
Qed.

(** A number of parts of 0 and a file of 1000 bytes: eight parts. *)
Lemma split_parameters_not_fatal_witness :
  let w := plain_world 1000 [x01] in
  let o := set_url "http://h/f" (set_chunk_size (-1) (set_num_part (-1) initial_options)) in
  num_part (split 1000 (default_output o)) = 8
  ∧ length (download_stage w (split 1000 (default_output o)) 1000 ∅).2 = 8%nat.
Proof.
  intros w o.
  destruct (split_parameters_not_fatal w ["co-curl"; "-np"; "0"; "http://h/f"] o ∅)
    as (_ & _ & _ & _ & _ & _ & _ & Hlen & _).
  - reflexivity.
  - discriminate.
  - reflexivity.
  - vm_compute. split; [discriminate | reflexivity].
  - split; [reflexivity | exact Hlen].
Defined.

(** * Further properties *)

(** ** [get_file_size] *)


(** ** [getHttpStatusMessage] *)

(** X2.  The message of every response code, listed or not, starts with
    the decimal numeral of the code followed by a space. *)
Theorem getHttpStatusMessage_prefix (response_code : Z) :
  ∃ text, getHttpStatusMessage response_code
          = Cxx.to_string response_code +:+ " " +:+ text.
Proof.
  unfold getHttpStatusMessage.
  repeat match goal with
    | |- context [match ?z with _ => _ end] => is_var z; destruct z
    end;
    try (exists "Unknown Response Code."; reflexivity);
    eexists; cbv; reflexivity.
Qed.

(** ** [check_files] *)

Section check_facts.

Variable d : disk.
Variable f : string.
Variables P C L : Z.

Local Abbreviation empty := (is_empty_part d f).
Local Abbreviation undersized := (is_undersized_part d f P C L).

(** One iteration on a part that is on disk. *)
Lemma check_part_present (i a : Z) :
  is_Some (d !! part_name f i) →
  check_part d f P C L i a
  = Cxx.Returns (if undersized i then -1 else if empty i then 0 else a).
Proof.
  intros [data Hdata]. unfold check_part, Fs.is_empty, Fs.file_size.
  unfold is_undersized_part, is_empty_part. rewrite Hdata.
  cbn -[Cxx.short_by_1E6].
  destruct (i =? P - 1); cbn -[Cxx.short_by_1E6];
    (destruct (Cxx.short_by_1E6 _ _); [done|]);
    (destruct data; [rewrite bool_decide_eq_true_2 by done
                    | rewrite bool_decide_eq_false_2 by done]; done).
Qed.

(** The loop returns as soon as all its parts are on disk. *)
Lemma check_loop_returns (n : nat) (i a : Z) :
  (∀ j, i ≤ j < i + Z.of_nat n → is_Some (d !! part_name f j)) →
  ∃ v, check_loop d f P C L n i a = Cxx.Returns v.
Proof.
  revert i a. induction n as [|n IH]; intros i a Hall; [by eexists|].
  cbn [check_loop]. rewrite check_part_present by (apply Hall; lia). cbn.
  apply IH. intros j Hj. apply Hall. lia.
Qed.

(** Parts that are neither empty nor undersized leave the verdict as it
    is. *)
Lemma check_loop_unflagged (n : nat) (i a : Z) :
  (∀ j, i ≤ j < i + Z.of_nat n →
     is_Some (d !! part_name f j) ∧ undersized j = false ∧ empty j = false) →
  check_loop d f P C L n i a = Cxx.Returns a.
Proof.
  revert i a. induction n as [|n IH]; intros i a Hall; [done|].
  cbn [check_loop]. destruct (Hall i) as (Hs & Hu & He); [lia|].
  rewrite check_part_present, Hu, He by done. cbn.
  apply IH. intros j Hj. apply Hall. lia.
Qed.

(** The last part that is empty or undersized decides. *)
Lemma check_loop_last_flag (n : nat) (i a : Z) (k : Z) :
  i ≤ k < i + Z.of_nat n →
  (∀ j, i ≤ j < i + Z.of_nat n → is_Some (d !! part_name f j)) →
  undersized k || empty k = true →
  (∀ j, k < j < i + Z.of_nat n → undersized j = false ∧ empty j = false) →
  check_loop d f P C L n i a
  = Cxx.Returns (if undersized k then -1 else 0).
Proof.
  revert i a. induction n as [|n IH]; intros i a Hk Hall Hflag Hlast; [lia|].
  cbn [check_loop]. rewrite check_part_present by (apply Hall; lia). cbn.
  destruct (decide (i = k)) as [->|Hne].
  - rewrite check_loop_unflagged.
    + destruct (undersized k); [done|]. cbn in Hflag. by rewrite Hflag.
    + intros j Hj. split; [apply Hall; lia | apply Hlast; lia].
  - apply IH; [lia | | done |].
    + intros j Hj. apply Hall. lia.
    + intros j Hj. apply Hlast. lia.
Qed.

(** The verdict 1 is never set by the loop. *)
Lemma check_loop_complete (n : nat) (i a : Z) :
  check_loop d f P C L n i a = Cxx.Returns 1 ↔
  a = 1 ∧ ∀ j, i ≤ j < i + Z.of_nat n →
            is_Some (d !! part_name f j) ∧ undersized j = false ∧ empty j = false.
Proof.
  revert i a. induction n as [|n IH]; intros i a.
  { cbn. split; [intros [= ->]; split; [done | lia] | by intros [-> _]]. }
  cbn [check_loop]. destruct (d !! part_name f i) as [data|] eqn:Hdata.
  - rewrite check_part_present by (by rewrite Hdata). cbn. rewrite IH. split.
    + intros [Ha Hrest].
      destruct (undersized i) eqn:Hu; [done|]. destruct (empty i) eqn:He; [done|].
      split; [done|]. intros j Hj. destruct (decide (j = i)) as [->|].
      * by rewrite Hdata, Hu, He.
      * apply Hrest. lia.
    + intros [-> Hall]. destruct (Hall i) as (_ & -> & ->); [lia|].
      split; [done|]. intros j Hj. apply Hall. lia.
  - unfold check_part, Fs.is_empty. rewrite Hdata. cbn. split; [done|].
    intros [_ Hall]. destruct (Hall i) as ([? ?] & _); [lia|]. congruence.
Qed.

End check_facts.

Lemma check_loop_throws (d : disk) (f : string) (P C L : Z) (n : nat) (i a : Z) :
  check_loop d f P C L n i a = Cxx.Throws →
  ∃ j, i ≤ j < i + Z.of_nat n ∧ d !! part_name f j = None.
Proof.
  revert i a. induction n as [|n IH]; intros i a; [done|].
  cbn [check_loop]. destruct (d !! part_name f i) as [data|] eqn:Hdata.
  - rewrite check_part_present by (by rewrite Hdata). cbn.
    intros H. destruct (IH _ _ H) as (j & Hj & Hnone). exists j. split; [lia | done].
  - intros _. exists i. split; [lia | done].
Qed.

Lemma check_loop_verdict (d : disk) (f : string) (P C L : Z) (n : nat) (i a v : Z) :
  a = -1 ∨ a = 0 ∨ a = 1 →
  check_loop d f P C L n i a = Cxx.Returns v →
  v = -1 ∨ v = 0 ∨ v = 1.
Proof.
  revert i a. induction n as [|n IH]; intros i a Ha; [by intros [= <-]|].
  cbn [check_loop]. destruct (d !! part_name f i) as [data|] eqn:Hdata.
  - rewrite check_part_present by (by rewrite Hdata). cbn. apply IH.
    destruct (is_undersized_part _ _ _ _ _ _); [by left|].
    destruct (is_empty_part _ _ _); [by right; left | done].
  - unfold check_part, Fs.is_empty. by rewrite Hdata.
Qed.

(** X3.  [check_files] throws exactly when one of the parts [0 .. P-1] is
    not on disk; otherwise it returns -1, 0 or 1. *)
Theorem check_files_throws_iff (d : disk) (f : string) (P C L : Z) :
  (check_files d f P C L = Cxx.Throws ↔
     ∃ i, 0 ≤ i < P ∧ d !! part_name f i = None)
  ∧ (∀ v, check_files d f P C L = Cxx.Returns v → v = -1 ∨ v = 0 ∨ v = 1).
Proof.
  split; [split|].
  - intros H. destruct (check_loop_throws _ _ _ _ _ _ _ _ H) as (j & Hj & Hnone).
    exists j. split; [lia | done].
  - intros (i & Hi & Hnone). by apply (check_files_absent d f P C L i).
  - intros v. apply check_loop_verdict. by right; right.
Qed.

(** The same with the comparison as the code makes it, on [double]. *)
Lemma check_files_complete_double (d : disk) (f : string) (P C L : Z) :
  check_files d f P C L = Cxx.Returns 1 ↔
  ∀ i, 0 ≤ i < P →
    ∃ data, d !! part_name f i = Some data
            ∧ data ≠ []
            ∧ Cxx.short_by_1E6 (Z.of_nat (length data))
                (if i =? P - 1 then L else C) = false.
Proof.
  unfold check_files. rewrite check_loop_complete. split.
  - intros [_ Hall] i Hi. destruct (Hall i) as ([data Hdata] & Hu & He); [lia|].
    exists data. unfold is_undersized_part, is_empty_part in *.
    rewrite Hdata in *. split_and!; [done | by intros -> | done].
  - intros Hall. split; [done|]. intros j Hj.
    destruct (Hall j) as (data & Hdata & Hne & Hsize); [lia|].
    unfold is_undersized_part, is_empty_part. rewrite Hdata.
    split_and!; [by eexists | done | by destruct data].
Qed.

(** X4.  For expected sizes [C] and [L] below 2^53, which [double] holds
    exactly, [check_files] returns 1 exactly when every part [0 .. P-1] is
    on disk, has at least one byte, and is at most 1,000,000 bytes shorter
    than expected ([L] bytes for the last part, [C] for the others). *)
Theorem check_files_complete_iff (d : disk) (f : string) (P C L : Z) :
  C < 2 ^ 53 → L < 2 ^ 53 →
  check_files d f P C L = Cxx.Returns 1 ↔
  ∀ i, 0 ≤ i < P →
    ∃ data, d !! part_name f i = Some data
            ∧ data ≠ []
            ∧ (if i =? P - 1 then L else C) ≤ Z.of_nat (length data) + 1000000.
Proof.
  intros HC HL. rewrite check_files_complete_double.
  assert (Hcmp : ∀ (data : list byte) i,
    Cxx.short_by_1E6 (Z.of_nat (length data)) (if i =? P - 1 then L else C) = false
    ↔ (if i =? P - 1 then L else C) ≤ Z.of_nat (length data) + 1000000).
  { intros data i. rewrite short_by_1E6_bounded, Z.ltb_ge; [done | lia |].
    by destruct (i =? P - 1). }
  split; intros Hall i Hi; destruct (Hall i Hi) as (data & Hdata & Hne & Hsize);
    exists data; (split_and!; [done | done | by apply Hcmp]).
Qed.

(** Two parts of 5 and 3 bytes where 5 and 3 are expected. *)
Lemma check_files_complete_iff_witness :
  let d : disk :=
    <["f.part0" := [x01; x02; x03; x04; x05]]> (<["f.part1" := [x06; x07; x08]]> ∅) in
  check_files d "f" 2 5 3 = Cxx.Returns 1 ↔
  ∀ i, 0 ≤ i < 2 →
    ∃ data, d !! part_name "f" i = Some data
            ∧ data ≠ []
            ∧ (if i =? 2 - 1 then 3 else 5) ≤ Z.of_nat (length data) + 1000000.
Proof.
  intros d. apply (check_files_complete_iff d "f" 2 5 3); reflexivity.
Defined.

(** X5.  When every part is on disk, the verdict of [check_files] is that
    of the last part that is empty or undersized (as the code compares
    the sizes, on [double]): -1 when that part is undersized, 0 when it is
    only empty.  An empty part therefore gives the
    verdict 0 only if no part from it on is undersized. *)
Theorem check_files_last_flag (d : disk) (f : string) (P C L : Z) (k : Z) :
  (∀ i, 0 ≤ i < P → is_Some (d !! part_name f i)) →
  0 ≤ k < P →
  is_undersized_part d f P C L k || is_empty_part d f k = true →
  (∀ j, k < j < P →
     is_undersized_part d f P C L j = false ∧ is_empty_part d f j = false) →
  check_files d f P C L
  = Cxx.Returns (if is_undersized_part d f P C L k then -1 else 0).
Proof.
  intros Hall Hk Hflag Hlast. unfold check_files.
  apply check_loop_last_flag; [lia | | done |].
  - intros j Hj. apply Hall. lia.
  - intros j Hj. apply Hlast. lia.
Qed.

(** Part 0 empty, then part 1 one byte where 2,000,000 are expected. *)
Lemma check_files_last_flag_witness :
  let d : disk := <["f.part0" := []]> (<["f.part1" := [x01]]> ∅) in
  check_files d "f" 2 2000000 2000000 = Cxx.Returns (-1).
Proof.
  intros d. apply (check_files_last_flag d "f" 2 2000000 2000000 1).
  - intros i Hi. assert (i = 0 ∨ i = 1) as [-> | ->] by lia; by eexists.
  - lia.
  - reflexivity.
  - intros j Hj. lia.
Defined.

(** ** [merge_files] *)

(** Once the destination stream has failed, the rest of the parts is
    opened and nothing is written. *)
Lemma merge_loop_failed (out : string) (n : nat) (i : Z) (d : disk) :
  (∀ j, i ≤ j < i + Z.of_nat n → is_Some (d !! part_name out j)) →
  merge_loop out n i false d = (d, true, seqZ i (Z.of_nat n)).
Proof.
  revert i. induction n as [|n IH]; intros i Hall; [done|].
  cbn [merge_loop]. destruct (Hall i) as [data Hdata]; [lia|]. rewrite Hdata.
  cbn [andb]. rewrite IH by (intros j Hj; apply Hall; lia).
  rewrite (seqZ_cons i) by lia. do 3 f_equal; lia.
Qed.

(** Up to the first empty part, the parts are appended. *)
Lemma merge_loop_until_empty (out : string) (n : nat) (i : Z) (d : disk)
    (acc : list byte) (k : Z) :
  d !! out = Some acc →
  (∀ j, i ≤ j < i + Z.of_nat n → is_Some (d !! part_name out j)) →
  i ≤ k < i + Z.of_nat n →
  d !! part_name out k = Some [] →
  (∀ j, i ≤ j < k → d !! part_name out j ≠ Some []) →
  (merge_loop out n i true d).1.2 = true
  ∧ (merge_loop out n i true d).2 = seqZ i (Z.of_nat n)
  ∧ (merge_loop out n i true d).1.1 !! out
    = Some (acc ++ parts_content d out i (k - i)).
Proof.
  revert i d acc. induction n as [|n IH]; intros i d acc Hacc Hall Hk Hempty Hfull; [lia|].
  cbn [merge_loop]. destruct (decide (i = k)) as [->|Hne].
  - rewrite Hempty. cbn [andb negb]. rewrite bool_decide_eq_true_2 by done.
    cbn [negb]. rewrite merge_loop_failed by (intros j Hj; apply Hall; lia).
    cbn [fst snd]. split_and!; [done | |].
    + rewrite (seqZ_cons k) by lia. do 2 f_equal; lia.
    + rewrite Hacc, Z.sub_diag. unfold parts_content. cbn. by rewrite app_nil_r.
  - destruct (Hall i) as [data Hdata]; [lia|]. rewrite Hdata.
    assert (data ≠ []) by (intros ->; by apply (Hfull i ltac:(lia))).
    rewrite bool_decide_eq_false_2 by done. cbn [andb negb].
    specialize (IH (i + 1) (Fs.append out data d) (acc ++ data)).
    destruct IH as (IH1 & IH2 & IH3).
    { unfold Fs.append. by rewrite lookup_insert_eq, Hacc. }
    { intros j Hj. rewrite append_part. apply Hall. lia. }
    { lia. }
    { by rewrite append_part. }
    { intros j Hj. rewrite append_part. apply Hfull. lia. }
    destruct (merge_loop out n (i + 1) true (Fs.append out data d)) as [[d' ok] op].
    cbn [fst snd] in *. split_and!; [done | |].
    + rewrite (seqZ_cons i) by lia. rewrite IH2. do 2 f_equal; lia.
    + rewrite IH3. f_equal. unfold parts_content.
      rewrite (seqZ_cons i (k - i)) by lia. cbn. rewrite Hdata. cbn.
      rewrite <- app_assoc. f_equal.
      replace (Z.pred (k - i)) with (k - (i + 1)) by lia.
      replace (Z.succ i) with (i + 1) by lia.
      do 2 f_equal. apply list_fmap_ext. intros ? j _. by rewrite append_part.
Qed.

(** X6.  When the destination can be created and every part is on disk,
    [merge_files] opens all parts and returns [true]; but if part [k] is the
    first empty one, the destination holds the parts before [k] only:
    inserting the empty part puts the destination stream into the failed
    state, and the parts after it are not written. *)
Theorem merge_files_stops_at_empty_part (w : world) (out : string) (P : Z)
    (d : disk) (k : Z) :
  creatable w out = true →
  (∀ i, 0 ≤ i < P → is_Some (d !! part_name out i)) →
  0 ≤ k < P →
  d !! part_name out k = Some [] →
  (∀ i, 0 ≤ i < k → d !! part_name out i ≠ Some []) →
  let r := merge_files w out P d in
  r.1.2 = true ∧ r.2 = seqZ 0 P ∧ r.1.1 !! out = Some (parts_content d out 0 k).
Proof.
  intros Hc Hall Hk Hempty Hfull. unfold merge_files. rewrite Hc. cbn [negb].
  assert (Hpart : ∀ i, Fs.truncate out d !! part_name out i = d !! part_name out i).
  { intros i. unfold Fs.truncate. apply lookup_insert_ne. intros E.
    symmetry in E. by apply part_name_ne in E. }
  destruct (merge_loop_until_empty out (Z.to_nat P) 0 (Fs.truncate out d) [] k)
    as (H1 & H2 & H3).
  - unfold Fs.truncate. apply lookup_insert_eq.
  - intros j Hj. rewrite Hpart. apply Hall. lia.
  - lia.
  - by rewrite Hpart.
  - intros j Hj. rewrite Hpart. by apply Hfull.
  - cbv zeta. rewrite seqZ_to_nat in H2. split_and!; [done | done |].
    rewrite H3, Z.sub_0_r. cbn [app]. f_equal. unfold parts_content. f_equal.
    apply list_fmap_ext. intros ? j _. by rewrite Hpart.
Qed.

(** Three parts, the second one empty: the third one is lost. *)
Lemma merge_files_stops_at_empty_part_witness :
  let d : disk :=
    <["f.part0" := [x01]]> (<["f.part1" := []]> (<["f.part2" := [x03]]> ∅)) in
  let r := merge_files (plain_world 3 []) "f" 3 d in
  r.1.2 = true ∧ r.1.1 !! "f" = Some [x01].
Proof.
  intros d r.
  destruct (merge_files_stops_at_empty_part (plain_world 3 []) "f" 3 d 1)
    as (Hok & _ & Hout).
  - reflexivity.
  - intros i Hi. assert (i = 0 ∨ i = 1 ∨ i = 2) as [-> | [-> | ->]] by lia; by eexists.
  - lia.
  - reflexivity.
  - intros i Hi. assert (i = 0) as -> by lia. discriminate.
  - split; [exact Hok | exact Hout].
Defined.

(** ** Check, merge, remove *)

(** A merge that succeeds leaves a destination. *)
Lemma merge_files_true_destination (w : world) (out : string) (P : Z) (d : disk) :
  (merge_files w out P d).1.2 = true → is_Some ((merge_files w out P d).1.1 !! out).
Proof.
  unfold merge_files. destruct (creatable w out); cbn [negb]; [|done]. intros _.
  apply merge_loop_destination. unfold Fs.truncate. rewrite lookup_insert_eq. by eexists.
Qed.

(** X7.  The exit status of the check, merge and remove block tells
    whether the destination exists afterwards: with status 0 it does, with
    status 1 it does not (it is deleted, also when a verdict of 0 kept the
    merge from being tried and the file was there before).  When
    [check_files] throws, the disk is left as it was.  The block changes no
    file but the destination and the parts. *)
Theorem exit_status_and_destination (w : world) (out : string) (P C S : Z) (d : disk) :
  let r := check_merge_remove w out P C S d in
  (status r = Exit 0 → is_Some (disk_after r !! out))
  ∧ (status r = Exit 1 → disk_after r !! out = None)
  ∧ (status r = Terminate → disk_after r = d)
  ∧ (status r = Exit 0 ∨ status r = Exit 1 ∨ status r = Terminate)
  ∧ (∀ p, p ≠ out → (∀ i, p ≠ part_name out i) → disk_after r !! p = d !! p).
Proof.
  unfold check_merge_remove.
  destruct (check_files _ _ _ _ _) as [v|]; [|cbn; split_and!; by eauto].
  pose proof (merge_files_true_destination w out P d) as Hdest.
  pose proof (merge_files_other w out P d) as Hother.
  destruct (merge_files w out P d) as [[d' ok] op]. cbn [fst snd] in *.
  assert (Hout : ∀ j, out ≠ part_name out j).
  { intros j E. symmetry in E. by apply part_name_ne in E. }
  destruct (v =? 0); cbn [negb].
  - cbn [status disk_after]. split_and!; try done; try by eauto.
    + intros _. unfold Fs.remove. apply lookup_delete_eq.
    + intros p Hp _. unfold Fs.remove. by rewrite lookup_delete_ne.
  - destruct ok; cbn [status disk_after].
    + split_and!; try done; try by eauto.
      * intros _. destruct (v =? 1); [|by apply Hdest].
        rewrite remove_parts_other by done. by apply Hdest.
      * intros p Hp Hparts. destruct (v =? 1); [|by apply Hother].
        rewrite remove_parts_other by done. by apply Hother.
    + split_and!; try done; try by eauto.
      * intros _. unfold Fs.remove. apply lookup_delete_eq.
      * intros p Hp _. unfold Fs.remove. rewrite lookup_delete_ne by done.
        by apply Hother.
Qed.

(** ** What a run touches *)

Lemma download_other (w : world) (f url : string) (s e : Z) (d : disk) (p : string) :
  p ≠ f → (download w f url s e d).1 !! p = d !! p.
Proof.
  intros Hp. unfold download. destruct (easy_init w f); [|done].
  by apply download_loop_other.
Qed.

Lemma download_parts_other (w : world) (o : options) (S : Z)
    (n : nat) (i : Z) (d : disk) (p : string) :
  (∀ j, p ≠ part_name (output_filename o) j) →
  (download_parts w o S n i d).1 !! p = d !! p.
Proof.
  intros Hp. revert i d. induction n as [|n IH]; intros i d; [done|].
  cbn [download_parts].
  destruct (part_range S (num_part o) (chunk_size o) i) as [st en].
  match goal with |- context [download_parts w o S n (i + 1) ?d1] =>
    specialize (IH (i + 1) d1); destruct (download_parts w o S n (i + 1) d1) end.
  cbn [fst snd] in *. rewrite IH. by apply download_other.
Qed.

Lemma download_stage_other (w : world) (o : options) (S : Z) (d : disk) (p : string) :
  p ≠ output_filename o →
  (∀ j, p ≠ part_name (output_filename o) j) →
  (download_stage w o S d).1 !! p = d !! p.
Proof.
  intros Hout Hparts. unfold download_stage.
  destruct (mode o =? -1); [by apply download_other|].
  destruct (mode o =? 0); [by apply download_parts_other|].
  destruct (mode o =? 1); [|done].
  destruct (part_range _ _ _ _). by apply download_other.
Qed.

Lemma check_merge_remove_other (w : world) (out : string) (P C S : Z)
    (d : disk) (p : string) :
  p ≠ out → (∀ i, p ≠ part_name out i) →
  disk_after (check_merge_remove w out P C S d) !! p = d !! p.
Proof.
  intros Hp Hparts. unfold check_merge_remove.
  destruct (check_files _ _ _ _ _) as [v|]; [|done].
  pose proof (merge_files_other w out P d p Hp) as Hother.
  destruct (merge_files w out P d) as [[d' ok] op]. cbn [fst snd] in *.
  destruct (v =? 0); cbn [negb status disk_after].
  - unfold Fs.remove. by rewrite lookup_delete_ne.
  - destruct ok.
    + destruct (v =? 1); [|done]. by rewrite remove_parts_other.
    + unfold Fs.remove. by rewrite lookup_delete_ne.
Qed.

(** An event of the download block is a call of [download]. *)
Lemma download_stage_events (w : world) (o : options) (S : Z) (d : disk) :
  Forall (λ ev, is_download ev = true) (download_stage w o S d).2.
Proof.
  unfold download_stage.
  destruct (mode o =? -1); [by repeat constructor|].
  destruct (mode o =? 0); [apply download_parts_all_downloads|].
  destruct (mode o =? 1); [|by constructor].
  destruct (part_range _ _ _ _). by repeat constructor.
Qed.

Lemma check_merge_remove_no_probe (w : world) (out : string) (P C S : Z) (d : disk) :
  Forall (λ ev, is_probe ev = false) (events (check_merge_remove w out P C S d)).
Proof.
  unfold check_merge_remove. destruct (check_files _ _ _ _ _) as [v|]; cbn.
  - destruct (v =? 0); cbn.
    + repeat constructor.
    + destruct (merge_files w out P d) as [[d' ok] op]. cbn. repeat constructor.
  - repeat constructor.
Qed.

(** X8.  A run changes no file but its output file and the part files of
    that name: every other path holds after [main] what it held before,
    however the run ends; and a command line that the option loop refuses
    leaves the whole disk as it is. *)
Theorem main_touches_only_its_files (w : world) (argv : list string) (d : disk) :
  (∀ normal_exit, parse_args initial_options (tail argv) = Stop normal_exit →
     disk_after (main w argv d) = d)
  ∧ (∀ o p, parse_args initial_options (tail argv) = Go o →
       let out := output_filename (default_output o) in
       p ≠ out → (∀ i, p ≠ part_name out i) →
       disk_after (main w argv d) !! p = d !! p).
Proof.
  unfold main. split.
  - by intros b ->.
  - intros o p Hparse. rewrite Hparse. cbv zeta. intros Hout Hparts. unfold main_go.
    destruct (bool_decide (url o = "")); [done|]. cbv zeta.
    destruct (_ <=? 0); [done|].
    destruct (split_keeps (get_file_size w (url (default_output o))) (default_output o))
      as (_ & Hname & _).
    set (o2 := split _ (default_output o)) in *.
    destruct (_ >? _); [done|].
    pose proof (download_stage_other w o2 (get_file_size w (url (default_output o))) d p)
      as Hstage.
    rewrite Hname in Hstage. specialize (Hstage Hout Hparts).
    destruct (download_stage w o2 _ d) as [d1 dl]. cbn [fst] in Hstage.
    destruct (_ || _); cbn [disk_after]; [|done].
    rewrite Hname, check_merge_remove_other by done. done.
Qed.

(** ** The order of a run *)

Lemma last_cons_some (A : Type) (a x : A) (l : list A) :
  last l = Some x → last (a :: l) = Some x.
Proof. destruct l; [done|]. done. Qed.

(** The url, when the option loop sets it, is the last argument. *)
Lemma parse_args_url_bounded (n : nat) :
  ∀ (args : list string) (o o' : options),
    (length args ≤ n)%nat → parse_args o args = Go o' →
    url o' = url o ∨ last args = Some (url o').
Proof.
  induction n as [|n IH]; intros args o o' Hlen.
  { destruct args; [|simpl in Hlen; lia]. intros [= <-]. by left. }
  destruct args as [|arg rest]; [intros [= <-]; by left|].
  simpl in Hlen. cbn [parse_args].
  repeat (match goal with |- context [if is_opt ?a ?b ?c then _ else _] =>
            destruct (is_opt a b c) end);
    try (destruct rest as [|v rest']; [done|]; simpl in Hlen);
    try (destruct (Cxx.abs_atoi v); [|done]);
    try (destruct (Cxx.abs_atoll v); [|done]);
    try (destruct (_ <? 0); [done|]);
    try done;
    try (intros H; apply IH in H; [|lia];
         destruct H as [H|H]; [by left | right];
         repeat apply last_cons_some; exact H).
  destruct rest; [|done]. intros [= <-]. by right.
Qed.

(** X9.  A run probes at most once and before anything else, and what
    it probes is the last argument of the command line: the events of
    [main] are either none, or the probe of the last argument followed by
    events that are no probe.  Whatever follows the probe (a download, the
    check, the merge) happens only when the probe gave a positive size. *)
Theorem main_probes_first (w : world) (argv : list string) (d : disk) :
  events (main w argv d) = []
  ∨ ∃ u rest, events (main w argv d) = EvProbe u :: rest
              ∧ u ≠ ""
              ∧ last argv = Some u
              ∧ Forall (λ ev, is_probe ev = false) rest
              ∧ (rest ≠ [] → 0 < get_file_size w u).
Proof.
  unfold main. destruct (parse_args initial_options (tail argv)) as [b|o|] eqn:Hparse;
    [by left | | by left].
  unfold main_go. destruct (bool_decide (url o = "")) eqn:Hurl; [by left|].
  apply bool_decide_eq_false in Hurl. right.
  assert (Hlast : last argv = Some (url o)).
  { destruct (parse_args_url_bounded _ _ _ _ (le_n _) Hparse) as [H|H]; [done|].
    destruct argv; [done|]. by apply last_cons_some. }
  destruct (default_output_keeps o) as (Hu1 & _). cbv zeta. rewrite Hu1.
  set (S := get_file_size w (url o)).
  destruct (Z.leb_spec S 0).
  { exists (url o), []. split_and!; done. }
  destruct (split_keeps S (default_output o)) as (Hu & _).
  set (o2 := split S (default_output o)) in *. rewrite Hu, Hu1.
  destruct (_ >? _).
  { exists (url o), []. split_and!; done. }
  pose proof (download_stage_events w o2 S d) as Hdl.
  assert (Hdl' : Forall (λ ev, is_probe ev = false) (download_stage w o2 S d).2).
  { eapply Forall_impl; [exact Hdl|]. by intros []. }
  destruct (download_stage w o2 S d) as [d1 dl]. cbn [snd] in Hdl'.
  destruct (_ || _); cbn [events].
  - eexists _, _. split_and!; [done | done | done | | done].
    apply Forall_app. split; [done | apply check_merge_remove_no_probe].
  - eexists _, _. split_and!; done.
Qed.

(** ** Single parts and the full run *)

(** The mode has no part in the number of parts, the chunk size and the
    names that [split] decides for a file that is split. *)
Lemma split_mode_irrelevant (S m : Z) (o : options) :
  MIN_FILE_SIZE_FOR_PARALLEL ≤ S →
  num_part (split S (set_mode m o)) = num_part (split S o)
  ∧ chunk_size (split S (set_mode m o)) = chunk_size (split S o)
  ∧ output_filename (split S (set_mode m o)) = output_filename (split S o)
  ∧ url (split S (set_mode m o)) = url (split S o).
Proof.
  intros HS. unfold split.
  destruct (Z.ltb_spec S MIN_FILE_SIZE_FOR_PARALLEL); [lia|]. cbn.
  destruct (chunk_size o <? 0); [destruct (num_part o <? 0)|destruct (num_part o <? 0)];
    cbn; repeat match goal with |- context [if ?c then _ else _] => destruct c end;
    done.
Qed.

Lemma default_output_set_mode (m : Z) (o : options) :
  default_output (set_mode m o) = set_mode m (default_output o).
Proof. unfold default_output. cbn. by destruct (bool_decide _). Qed.

(** X10.  A single-part run downloads what the full run downloads for
    that part.  For a file that is split and an index [i] within the number
    of parts, the run with [-s i] makes one call of [download], and it is
    the call number [i] (same part file, same byte range) of the run with
    the same options in the default mode. *)
Theorem single_part_matches_full_run (w : world) (o : options) (d d' : disk) :
  url o ≠ "" →
  mode o = 1 →
  let S := get_file_size w (url o) in
  MIN_FILE_SIZE_FOR_PARALLEL ≤ S →
  0 ≤ part_index o ≤ num_part (split S (default_output o)) - 1 →
  ∃ ev, downloads (main_go w o d) = [ev]
        ∧ downloads (main_go w (set_mode 0 o) d') !! Z.to_nat (part_index o) = Some ev.
Proof.
  intros Hurl Hmode S HS Hidx.
  assert (HS0 : 0 < S) by (unfold MIN_FILE_SIZE_FOR_PARALLEL in HS; lia).
  set (o1 := default_output o) in *. set (o2 := split S o1) in *.
  destruct (split_keeps S o1) as (Hu & Hout & Hi). fold o2 in Hu, Hout, Hi.
  destruct (default_output_keeps o) as (Hu1 & Hm1 & Hi1 & _). fold o1 in Hu1, Hm1, Hi1.
  set (i := part_index o) in *.
  set (r := part_range S (num_part o2) (chunk_size o2) i).
  exists (EvDownload (part_name (output_filename o1) i) r.1 r.2). split.
  - pose proof (main_go_probed w o d Hurl HS0) as Hmain. cbv zeta in Hmain.
    fold S o1 o2 i in Hmain. rewrite Hmain.
    destruct (Z.gtb_spec i (num_part o2 - 1)); [lia|].
    assert (Hm2 : mode o2 = 1).
    { unfold o2. rewrite split_mode by done. by rewrite Hm1. }
    unfold download_stage. rewrite Hm2, Hi, Hi1, Hout. cbn. fold i r.
    by destruct r.
  - assert (Hurl0 : url (set_mode 0 o) ≠ "") by done.
    pose proof (main_go_probed w (set_mode 0 o) d' Hurl0 HS0) as Hmain.
    cbv zeta in Hmain. rewrite default_output_set_mode in Hmain.
    change (url (set_mode 0 o)) with (url o) in Hmain.
    change (part_index (set_mode 0 o)) with (part_index o) in Hmain.
    fold S o1 i in Hmain.
    destruct (split_mode_irrelevant S 0 o1 HS) as (HP & HC & HO & _).
    fold o2 in HP, HC, HO.
    set (o3 := split S (set_mode 0 o1)) in *. rewrite HP in Hmain.
    destruct (Z.gtb_spec i (num_part o2 - 1)); [lia|].
    assert (Hm3 : mode o3 = 0) by (unfold o3; by rewrite split_mode).
    pose proof (download_parts_events w o3 S (Z.to_nat (num_part o3)) 0 d') as Hev.
    unfold download_stage in Hmain. rewrite Hm3 in Hmain. cbn [Z.eqb orb] in Hmain.
    destruct (download_parts w o3 S (Z.to_nat (num_part o3)) 0 d') as [d1 dl].
    cbn [snd] in Hev. rewrite Hmain. unfold downloads. cbn [events].
    rewrite filter_cons_False by (cbn; discriminate).
    rewrite filter_app, (filter_downloads_none (events _))
      by apply check_merge_remove_events.
    rewrite app_nil_r, filter_downloads_all.
    + rewrite Hev, list_lookup_fmap, lookup_seqZ_lt by lia. cbn.
      rewrite HP, HC, HO, Hout, Z2Nat.id by lia. done.
    + rewrite Hev. apply Forall_fmap, Forall_forall. done.
Qed.

(** Part 1 of a file of 4000 bytes in two parts. *)
Lemma single_part_matches_full_run_witness :
  let w := plain_world 4000 [x01] in
  let o := set_url "http://h/f" (set_part_index 1 (set_mode 1
             (set_num_part 2 initial_options))) in
  downloads (main_go w o ∅) = [EvDownload "f.part1" 2000 3999]
  ∧ downloads (main_go w (set_mode 0 o) ∅) !! 1%nat
    = Some (EvDownload "f.part1" 2000 3999).
Proof.
  intros w o.
  destruct (single_part_matches_full_run w o ∅ ∅) as (ev & H1 & H2).
  - discriminate.
  - reflexivity.
  - vm_compute. discriminate.
  - vm_compute. split; discriminate.
  - assert (Hev : ev = EvDownload "f.part1" 2000 3999).
    { assert (E : downloads (main_go w o ∅) = [EvDownload "f.part1" 2000 3999])
        by (vm_compute; reflexivity).
      rewrite E in H1. by injection H1. }
    rewrite Hev in H1, H2. split; [exact H1 | exact H2].
Defined.

(** ** A full run against a server that holds the file *)

Section round_trip.

Variable content : list byte.

Local Abbreviation S := (Z.of_nat (length content)).
Local Abbreviation w := (honest_world content).

Lemma honest_probe (u : string) : 0 < S → get_file_size w u = S.
Proof.
  intros HS. unfold get_file_size. cbn.
  destruct (Z.eqb_spec S 0); [lia | done].
Qed.

(** One download leaves the bytes of the range in the file. *)
Lemma honest_download (f u : string) (s e : Z) (d : disk) :
  (download w f u s e d).1 !! f = Some (slice content s e).
Proof.
  unfold download. cbn [easy_init honest_world]. unfold NUM_TRY_DOWNLOAD.
  cbn [download_loop transfer honest_world Z.leb Z.compare Pos.compare
       Pos.compare_cont fst].
  apply written_in_full.
Qed.

(** The parts of a range of indices, after the parallel loop. *)
Lemma honest_download_parts (o : options) (n : nat) (i : Z) (d : disk) :
  let d' := (download_parts w o S n i d).1 in
  (∀ j, i ≤ j < i + Z.of_nat n →
     d' !! part_name (output_filename o) j
     = Some (slice content (part_range S (num_part o) (chunk_size o) j).1
                           (part_range S (num_part o) (chunk_size o) j).2))
  ∧ (∀ p, (∀ j, i ≤ j < i + Z.of_nat n → p ≠ part_name (output_filename o) j) →
       d' !! p = d !! p).
Proof.
  revert i d. induction n as [|n IH]; intros i d; cbn zeta.
  { split; [lia | done]. }
  cbn [download_parts].
  destruct (part_range S (num_part o) (chunk_size o) i) as [st en] eqn:E.
  match goal with |- context [download_parts w o S n (i + 1) ?d1] =>
    pose proof (IH (i + 1) d1) as [IH1 IH2];
    pose proof (honest_download (part_name (output_filename o) i) (url o) st en d) as Hi;
    pose proof (download_other w (part_name (output_filename o) i) (url o) st en d) as Ho;
    destruct (download_parts w o S n (i + 1) d1) as [d2 evs]
  end.
  cbn [fst] in *. split.
  - intros j Hj. destruct (decide (j = i)) as [->|Hne].
    + rewrite IH2, Hi, E; [done|].
      intros j Hj' Heq. apply part_name_inj in Heq. lia.
    + apply IH1. lia.
  - intros p Hp. rewrite IH2 by (intros j Hj; apply Hp; lia).
    apply Ho, Hp. lia.
Qed.

(** The ranges before the last one, joined, are a prefix of the file. *)
Lemma slices_join (P C : Z) (n : nat) (i : Z) :
  0 ≤ i → 0 ≤ C → i + Z.of_nat n ≤ P - 1 →
  mjoin ((λ j, slice content (part_range S P C j).1 (part_range S P C j).2)
         <$> seqZ i (Z.of_nat n))
  = take (Z.to_nat (Z.of_nat n * C)) (drop (Z.to_nat (i * C)) content).
Proof.
  revert i. induction n as [|n IH]; intros i Hi HC Hn; [done|].
  rewrite seqZ_cons by lia. rewrite fmap_cons. cbn [mjoin list_join].
  replace (Z.pred (Z.of_nat (Datatypes.S n))) with (Z.of_nat n) by lia.
  replace (Z.succ i) with (i + 1) by lia.
  rewrite IH by lia. unfold part_range at 1 2. cbn [fst snd].
  destruct (Z.eqb_spec i (P - 1)); [lia|]. unfold slice.
  replace (i * C + C - 1 - i * C + 1) with C by lia.
  replace (Z.to_nat ((i + 1) * C)) with (Z.to_nat (i * C) + Z.to_nat C)%nat by nia.
  rewrite <- drop_drop, take_take_drop. f_equal. nia.
Qed.

(** All the ranges, joined, are the file. *)
Lemma slices_join_all (P C : Z) :
  1 ≤ P → 0 ≤ C → (P - 1) * C ≤ S →
  mjoin ((λ j, slice content (part_range S P C j).1 (part_range S P C j).2)
         <$> seqZ 0 P)
  = content.
Proof.
  intros HP HC HS.
  assert (E : seqZ 0 P = seqZ 0 (Z.of_nat (Z.to_nat (P - 1))) ++ [P - 1]).
  { replace P with (Z.of_nat (Z.to_nat (P - 1)) + 1) at 1 by lia.
    rewrite seqZ_app by lia. f_equal. rewrite seqZ_cons by lia. cbn. f_equal. lia. }
  rewrite E, fmap_app, join_app.
  rewrite slices_join by lia. cbn. rewrite app_nil_r.
  unfold part_range. cbn [fst snd].
  rewrite Z.eqb_refl. unfold slice. rewrite Z2Nat.id by lia.
  assert (0 ≤ (P - 1) * C) by nia.
  set (X := (P - 1) * C) in *. rewrite Z.mul_0_l.
  change (Z.to_nat 0) with 0%nat. rewrite drop_0.
  rewrite (take_ge (drop (Z.to_nat X) content)) by (rewrite length_drop; lia).
  apply take_drop.
Qed.

End round_trip.

(** Every part on disk and none empty: the merge succeeds and the
    destination holds the parts, one after the other. *)
Lemma merge_files_complete (w : world) (out : string) (P : Z) (d : disk) :
  creatable w out = true →
  (∀ i, 0 ≤ i < P → ∃ data, d !! part_name out i = Some data ∧ data ≠ []) →
  (merge_files w out P d).1.2 = true
  ∧ (merge_files w out P d).1.1 !! out = Some (parts_content d out 0 P).
Proof.
  intros Hc Hparts. unfold merge_files. rewrite Hc. cbn [negb].
  assert (Hpart : ∀ i, Fs.truncate out d !! part_name out i = d !! part_name out i).
  { intros i. unfold Fs.truncate. apply lookup_insert_ne. intros E.
    symmetry in E. by apply part_name_ne in E. }
  destruct (merge_loop_complete out (Z.to_nat P) 0 (Fs.truncate out d) [])
    as (H1 & _ & H3).
  - unfold Fs.truncate. apply lookup_insert_eq.
  - intros j Hj. rewrite Hpart. apply Hparts. lia.
  - split; [done|]. rewrite H3. cbn [app]. f_equal. unfold parts_content.
    rewrite seqZ_to_nat. f_equal. apply list_fmap_ext. intros ? j _.
    by rewrite Hpart.
Qed.

Lemma slice_length (content : list byte) (s e : Z) :
  0 ≤ s → s ≤ e + 1 → e < Z.of_nat (length content) →
  Z.of_nat (length (slice content s e)) = e - s + 1.
Proof.
  intros Hs He Hlen. unfold slice. rewrite length_take, length_drop. lia.
Qed.

(** The check, merge and remove block on parts that hold the ranges of the
    file. *)
Lemma honest_check_merge_remove (content : list byte) (out : string)
    (P C : Z) (d : disk) :
  let S := Z.of_nat (length content) in
  1 ≤ P → 1 ≤ C → (P - 1) * C < S → S < 2 ^ 63 →
  (∀ j, 0 ≤ j < P →
     d !! part_name out j
     = Some (slice content (part_range S P C j).1 (part_range S P C j).2)) →
  let r := check_merge_remove (honest_world content) out P C S d in
  status r = Exit 0
  ∧ disk_after r !! out = Some content
  ∧ (∀ j, 0 ≤ j < P → disk_after r !! part_name out j = None)
  ∧ (∀ p, p ≠ out → (∀ j, p ≠ part_name out j) → disk_after r !! p = d !! p).
Proof.
  intros S HP HC Hlast HS Hparts r.
  assert (Hlen : ∀ j, 0 ≤ j < P →
            Z.of_nat (length (slice content (part_range S P C j).1
                                            (part_range S P C j).2))
            = if j =? P - 1 then S - (P - 1) * C else C).
  { intros j Hj. unfold part_range. cbn [fst snd].
    destruct (Z.eqb_spec j (P - 1)) as [->|].
    - rewrite slice_length; fold S; nia.
    - rewrite slice_length; fold S; nia. }
  assert (Hsmall : ∀ x, 0 ≤ x < 2 ^ 63 → Cxx.to_uintmax x = x).
  { intros x Hx. unfold Cxx.to_uintmax. apply Z.mod_small. lia. }
  assert (Hcheck : check_files d out P (Cxx.to_uintmax C)
                     (Cxx.to_uintmax (S - (P - 1) * C)) = Cxx.Returns 1).
  { unfold check_files. apply check_loop_complete. split; [done|].
    intros j Hj. rewrite Z.add_0_l, Z2Nat.id in Hj by lia.
    unfold is_undersized_part, is_empty_part. rewrite (Hparts j Hj).
    pose proof (Hlen j Hj) as Hl. split_and!; [by eexists | |].
    - rewrite Hl. destruct (Z.eqb_spec j (P - 1)).
      + rewrite Hsmall by nia. apply short_by_1E6_same. nia.
      + rewrite Hsmall by nia. apply short_by_1E6_same. lia.
    - destruct (slice content _ _); [|done]. cbn in Hl.
      destruct (Z.eqb_spec j (P - 1)); nia. }
  destruct (merge_files_complete (honest_world content) out P d) as [Hok Hout].
  { done. }
  { intros j Hj. eexists. split; [by apply Hparts|].
    pose proof (Hlen j Hj) as Hl. intros E. rewrite E in Hl. cbn in Hl.
    destruct (Z.eqb_spec j (P - 1)); nia. }
  pose proof (merge_files_other (honest_world content) out P d) as Hother.
  assert (Hcontent : parts_content d out 0 P = content).
  { unfold parts_content.
    etrans; [|apply (slices_join_all content P C); lia]. f_equal.
    apply list_fmap_ext. intros i j Hij. apply lookup_seqZ in Hij as [-> Hi].
    rewrite Hparts by lia. done. }
  subst r. unfold check_merge_remove. rewrite Hcheck.
  destruct (merge_files (honest_world content) out P d) as [[d' ok] op].
  cbn [fst snd] in *. subst ok. cbn [Z.eqb negb status disk_after Pos.eqb].
  split_and!; [done | | |].
  - rewrite remove_parts_other.
    + by rewrite Hout, Hcontent.
    + intros j E. symmetry in E. by apply part_name_ne in E.
  - intros j Hj. apply remove_parts_gone. lia.
  - intros p Hp Hps. rewrite remove_parts_other by done. by apply Hother.
Qed.

(** X11.  Round trip.  Against a server that holds [content] (at least
    1000 bytes) and answers every range request with the bytes asked for,
    a run in the default mode whose split gives every part at least one
    byte (chunk size at least 1, last part not empty) exits with 0 and
    leaves [content], byte for byte, in the output file; the part files are
    gone and no other file is changed. *)
Theorem honest_round_trip (content : list byte) (o : options) (d : disk) :
  url o ≠ "" →
  mode o = 0 →
  part_index o = -1 →
  let S := Z.of_nat (length content) in
  MIN_FILE_SIZE_FOR_PARALLEL ≤ S < 2 ^ 63 →
  let o2 := split S (default_output o) in
  1 ≤ num_part o2 →
  1 ≤ chunk_size o2 →
  (num_part o2 - 1) * chunk_size o2 < S →
  let out := output_filename (default_output o) in
  let r := main_go (honest_world content) o d in
  status r = Exit 0
  ∧ disk_after r !! out = Some content
  ∧ (∀ j, 0 ≤ j < num_part o2 → disk_after r !! part_name out j = None)
  ∧ (∀ p, p ≠ out → (∀ j, p ≠ part_name out j) → disk_after r !! p = d !! p).
Proof.
  intros Hurl Hmode Hidx S HS o2 HP HC Hlast out r.
  assert (HS0 : 0 < S) by (unfold MIN_FILE_SIZE_FOR_PARALLEL in HS; lia).
  pose proof (honest_probe content (url o) HS0) as Hprobe.
  pose proof (main_go_probed (honest_world content) o d Hurl) as Hmain.
  cbv zeta in Hmain. rewrite Hprobe in Hmain. specialize (Hmain HS0).
  fold S o2 in Hmain.
  destruct (split_keeps S (default_output o)) as (_ & Hout & _).
  fold o2 out in Hout.
  assert (Hm2 : mode o2 = 0).
  { unfold o2. rewrite split_mode by lia.
    by destruct (default_output_keeps o) as (_ & -> & _). }
  subst r. rewrite Hmain, Hidx.
  destruct (Z.gtb_spec (-1) (num_part o2 - 1)); [lia|].
  unfold download_stage. rewrite Hm2. cbn [Z.eqb orb].
  pose proof (honest_download_parts content o2 (Z.to_nat (num_part o2)) 0 d) as Hdl.
  cbv zeta in Hdl. fold S in Hdl. rewrite Hout in Hdl |- *.
  destruct (download_parts (honest_world content) o2 S (Z.to_nat (num_part o2)) 0 d)
    as [d1 dl].
  cbn [fst] in Hdl. destruct Hdl as [Hparts Hrest].
  destruct (honest_check_merge_remove content out (num_part o2) (chunk_size o2) d1)
    as (H1 & H2 & H3 & H4); [lia | lia | done | lia | |].
  { intros j Hj. apply Hparts. lia. }
  cbn [status disk_after]. fold S in H1, H2, H3, H4. split_and!; [done | done | done |].
  intros p Hp Hps. rewrite H4 by done. apply Hrest. intros j _. apply Hps.
Qed.

(** A file of 1000 bytes in four parts. *)
Lemma honest_round_trip_witness :
  let content := replicate 1000 x01 in
  let o := set_url "http://h/f" (set_num_part 4 initial_options) in
  let r := main_go (honest_world content) o ∅ in
  status r = Exit 0 ∧ disk_after r !! "f" = Some content.
Proof.
  intros content o r.
  destruct (honest_round_trip content o ∅) as (H1 & H2 & _).
  - discriminate.
  - reflexivity.
  - reflexivity.
  - vm_compute. split; [discriminate | reflexivity].
  - vm_compute. discriminate.
  - vm_compute. discriminate.
  - vm_compute. reflexivity.
  - split; [exact H1 | exact H2].
Defined.

(** ** The size of the parts *)

(** X12.  How many bytes each part is planned to have, for a file of
    [S >= 1000] bytes.  Split by a number of parts [P]: the chunk size is
    [S / P] and the last part has the [S mod P] bytes of the remainder on
    top of it.  Split by a chunk size of [c] megabytes: [C = c * 1000000],
    the number of parts is [S / C + 1] and the last part has [S mod C]
    bytes; when [C] divides [S] it is planned empty, with the range
    [S .. S-1]. *)
Theorem planned_part_sizes (S : Z) (o : options) :
  MIN_FILE_SIZE_FOR_PARALLEL ≤ S →
  let P := num_part (split S o) in
  let C := chunk_size (split S o) in
  let last_part_size := S - (P - 1) * C in
  (chunk_size o < 0 → 1 ≤ (if num_part o <? 0 then num_thread o else num_part o) →
     C = S / P ∧ last_part_size = C + S `mod` P)
  ∧ (1 ≤ chunk_size o → num_part o < 0 →
       S / (chunk_size o * 1000000) + 1 < 2 ^ 31 →
       C = chunk_size o * 1000000
       ∧ P = S / C + 1
       ∧ last_part_size = S `mod` C
       ∧ (S `mod` C = 0 → part_range S P C (P - 1) = (S, S - 1))).
Proof.
  intros HS P C last_part_size.
  assert (HS0 : 0 ≤ S) by (unfold MIN_FILE_SIZE_FOR_PARALLEL in HS; lia).
  split.
  - intros Hc HP. subst last_part_size P C.
    destruct (split_by_count S o HS Hc) as (-> & -> & _).
    set (P := if num_part o <? 0 then num_thread o else num_part o) in *.
    rewrite Z.quot_div_nonneg by lia.
    pose proof (Z.div_mod S P ltac:(lia)). split; [done | lia].
  - intros Hc Hn Hfit. subst last_part_size P C.
    destruct (split_by_chunk S o HS ltac:(lia) Hn) as (-> & -> & _).
    set (C := chunk_size o * 1000000) in *.
    assert (0 < C) by (subst C; lia).
    rewrite Z.quot_div_nonneg by lia.
    pose proof (Z.div_pos S C ltac:(lia) ltac:(lia)).
    rewrite to_int_small by lia.
    pose proof (Z.div_mod S C ltac:(lia)).
    split_and!; [done | done | lia |].
    intros Hdiv. unfold part_range. rewrite Z.eqb_refl. f_equal. lia.
Qed.

(** Ten million bytes in chunks of ten megabytes: a second, empty part. *)
Lemma planned_part_sizes_witness :
  let o := set_chunk_size 10 initial_options in
  num_part (split 10000000 o) = 2
  ∧ part_range 10000000 2 10000000 1 = (10000000, 9999999).
Proof.
  intros o.
  destruct (planned_part_sizes 10000000 o) as (_ & H).
  - vm_compute. discriminate.
  - destruct H as (HC & HP & _ & Hempty).
    + vm_compute. discriminate.
    + reflexivity.
    + reflexivity.
    + split; [exact HP|]. apply Hempty. reflexivity.
Defined.

(** ** What [download] leaves behind *)

Lemma download_loop_whole_or_nothing (w : world) (f url : string) (s e : Z)
    (n i : nat) (d : disk) :
  let r := download_loop w f url s e n i d in
  (r.1 = d ∧ Forall (λ a, a = CannotOpen) r.2)
  ∨ r.1 !! f = None
  ∨ ∃ c b, last r.2 = Some (TransferDone c b)
           ∧ failed (TransferDone c b) = false
           ∧ r.1 !! f = Some b.
Proof.
  revert i d. induction n as [|n IH]; intros i d; cbn zeta.
  { left. by split. }
  cbn [download_loop]. destruct (transfer w url f s e i) as [|wr|c b] eqn:E.
  - specialize (IH (Datatypes.S i) d). cbn zeta in IH.
    destruct (download_loop w f url s e n (Datatypes.S i) d) as [d' log].
    cbn [fst snd] in *. destruct IH as [[-> Hall]|[Hnone|(c & b & Hl & Hf & Hb)]].
    + left. split; [done | by constructor].
    + by right; left.
    + right; right. exists c, b. split_and!; [by apply last_cons_some | done | done].
  - match goal with |- context [download_loop w f url s e n (Datatypes.S i) ?d1] =>
      specialize (IH (Datatypes.S i) d1); cbn zeta in IH;
      pose proof (written_then_removed f wr d) as Hgone;
      destruct (download_loop w f url s e n (Datatypes.S i) d1) as [d' log] end.
    cbn [fst snd] in *. destruct IH as [[-> Hall]|[Hnone|(c & b & Hl & Hf & Hb)]].
    + by right; left.
    + by right; left.
    + right; right. exists c, b. split_and!; [by apply last_cons_some | done | done].
  - cbn [fst snd]. destruct (failed (TransferDone c b)) eqn:Hf.
    + right; left. destruct c as [c|]; [|done]. cbn in Hf. rewrite Hf.
      apply written_then_removed.
    + right; right. exists c, b. split_and!; [done | done |].
      destruct c as [c|]; [cbn in Hf; rewrite Hf|]; apply written_in_full.
Qed.

(** X13.  [download] leaves a whole body or nothing.  After the call,
    either no attempt could open the file and the disk is as before, or
    there is no file at the path, or the file is the complete body of the
    last attempt, a transfer that completed with a status below 400 (or a
    status that could not be read).  What a failed transfer wrote is never
    left on disk. *)
Theorem download_whole_or_nothing (w : world) (f url : string) (s e : Z) (d : disk) :
  let r := download w f url s e d in
  (r.1 = d ∧ Forall (λ a, a = CannotOpen) r.2)
  ∨ r.1 !! f = None
  ∨ ∃ c b, last r.2 = Some (TransferDone c b)
           ∧ failed (TransferDone c b) = false
           ∧ r.1 !! f = Some b.
Proof.
  unfold download. destruct (easy_init w f).
  - apply download_loop_whole_or_nothing.
  - left. by split.
Qed.

(** ** The default output name *)

Lemma index_slash_cons (c : ascii) (s : string) :
  c ≠ "/"%char →
  String.index 0 "/" s = None →
  String.index 0 "/" (String c s) = None.
Proof.
  intros Hc Hs. cbn [String.index String.prefix].
  destruct (ascii_dec "/" c) as [E|_]; [by destruct Hc|]. by rewrite Hs.
Qed.

(** X14.  The output name that [main] takes from the url when [-o] is not
    given is what follows the last slash of the url: it contains no slash,
    and the url is this name after a prefix that is empty or ends with a
    slash.  An output name given with [-o] is kept as it is. *)
Theorem default_output_name (o : options) :
  (output_filename o ≠ "" →
     output_filename (default_output o) = output_filename o)
  ∧ (output_filename o = "" →
       let name := output_filename (default_output o) in
       String.index 0 "/" name = None
       ∧ ∃ pre, url o = pre +:+ name
                ∧ (pre = "" ∨ ∃ pre', pre = pre' +:+ "/")).
Proof.
  unfold default_output. split.
  - intros Hne. by rewrite bool_decide_eq_false_2.
  - intros He. rewrite bool_decide_eq_true_2 by done. cbn.
    generalize (url o) as u. clear. intros u. induction u as [|c u [IH1 IH2]].
    { split; [done|]. exists "". split; [done | by left]. }
    cbn [Cxx.after_last_slash]. destruct (bool_decide (c = "/"%char)) eqn:Hc.
    + apply bool_decide_eq_true in Hc as ->. split; [done|].
      destruct IH2 as (pre & Hu & Hpre). exists (String "/" pre). split.
      * change (String "/" pre +:+ Cxx.after_last_slash u)
          with (String "/" (pre +:+ Cxx.after_last_slash u)). by rewrite <- Hu.
      * right. destruct Hpre as [->|[pre' ->]]; [by exists "" | by exists (String "/" pre')].
    + apply bool_decide_eq_false in Hc.
      destruct (bool_decide (String.index 0 "/" u = None)) eqn:Hi.
      * apply bool_decide_eq_true in Hi. split; [by apply index_slash_cons|].
        exists "". split; [done | by left].
      * split; [done|]. destruct IH2 as (pre & Hu & Hpre).
        apply bool_decide_eq_false in Hi.
        exists (String c pre). split.
        -- change (String c pre +:+ Cxx.after_last_slash u)
             with (String c (pre +:+ Cxx.after_last_slash u)). by rewrite <- Hu.
        -- right. destruct Hpre as [->|[pre' ->]]; [|by exists (String c pre')].
           rewrite Hu in Hi. by destruct Hi.
Qed.

(** The url [http://h/dir/f.bin] gives the output name [f.bin]. *)
Lemma default_output_name_witness :
  output_filename (default_output (set_url "http://h/dir/f.bin" initial_options))
  = "f.bin"
  ∧ String.index 0 "/"
      (output_filename (default_output (set_url "http://h/dir/f.bin" initial_options)))
    = None.
Proof.
  destruct (default_output_name (set_url "http://h/dir/f.bin" initial_options))
    as (_ & H).
  destruct H as (Hidx & _); [reflexivity|].
  split; [reflexivity | exact Hidx].
Defined.

(** ** The number of threads *)

Lemma split_threads_min (S : Z) (o : options) :
  MIN_FILE_SIZE_FOR_PARALLEL ≤ S → mode o = 0 →
  num_thread (split S o) = Z.min (num_thread o) (num_part (split S o)).
Proof.
  intros HS Hm. unfold split.
  destruct (Z.ltb_spec S MIN_FILE_SIZE_FOR_PARALLEL); [lia|].
  repeat match goal with |- context [if ?c then _ else _] =>
    let E := fresh in destruct c eqn:E end;
    cbn in *; rewrite ?Hm in *; cbn in *;
    repeat match goal with
      | H : _ && _ = true |- _ => apply andb_true_iff in H as [? ?]
      | H : _ && _ = false |- _ => apply andb_false_iff in H as [?|?]
      | H : (_ <? _) = true |- _ => apply Z.ltb_lt in H
      | H : (_ <? _) = false |- _ => apply Z.ltb_ge in H
      | H : (_ =? _) = false |- _ => apply Z.eqb_neq in H
      end; lia.
Qed.

(** X15.  The number of threads is never below 1.  In the option loop,
    the number [n] that [atoi] reads after [-nth] (any [int] but
    [INT_MIN], of which [abs] has no value) is replaced by its absolute
    value, and by the default of 8 when it is 0.  For every set of options
    that the loop hands on and every probed size [1 <= S < 2^53], the
    number of threads is at least 1 before and after [split], and in the
    default mode of a file that is split it is at most the number of
    parts. *)
Theorem thread_count_positive (args : list string) (o : options) (S : Z) :
  parse_args initial_options args = Go o →
  1 ≤ S < 2 ^ 53 →
  let o2 := split S (default_output o) in
  (∀ o0 arg v rest n,
     arg = "-nth" ∨ arg = "--num-thread" →
     Cxx.atoi v = Some n → n ≠ - 2 ^ 31 →
     parse_args o0 (arg :: v :: rest)
     = parse_args
         (set_num_thread (if n =? 0 then DEFAULT_NUM_THREADS else Z.abs n) o0) rest)
  ∧ 1 ≤ num_thread o
  ∧ 1 ≤ num_thread o2
  ∧ (MIN_FILE_SIZE_FOR_PARALLEL ≤ S → mode o = 0 → num_thread o2 ≤ num_part o2).
Proof.
  intros Hparse HS o2.
  split; [intros o0 arg v rest n; apply parse_args_num_thread|].
  pose proof (parse_args_sane args o Hparse) as Ho.
  pose proof (default_output_sane o Ho) as Ho1.
  pose proof (split_num_part_pos S (default_output o) Ho1 HS) as HP. fold o2 in HP.
  destruct (default_output_keeps o) as (_ & Hm1 & _ & _ & _ & Ht1).
  assert (Ht : num_thread o2 = num_thread o
               ∨ (num_thread o2 = num_part o2 ∧ mode o2 = 0
                  ∧ num_part o2 < num_thread o)).
  { unfold o2, split.
    repeat match goal with |- context [if ?c then _ else _] =>
      let E := fresh in destruct c eqn:E end;
      cbn in *; rewrite ?Ht1; try (by left);
      right;
      repeat match goal with
        | H : _ && _ = true |- _ => apply andb_true_iff in H as [? ?]
        | H : (_ <? _) = true |- _ => apply Z.ltb_lt in H
        | H : (_ =? _) = true |- _ => apply Z.eqb_eq in H
        end;
      rewrite ?Ht1 in *; split_and!; try done; lia. }
  destruct Ho as [Hth _ _ _ _ _ _ _]. split_and!; [done | |].
  - destruct Ht as [-> | (-> & _)]; lia.
  - intros Hbig Hm.
    pose proof (split_threads_min S (default_output o) Hbig ltac:(by rewrite Hm1)) as Hmin.
    fold o2 in Hmin. lia.
Qed.

(** A thread count of 0 on the command line. *)
Lemma thread_count_positive_witness :
  let o := set_url "http://h/f" (set_num_thread 8 initial_options) in
  parse_args initial_options ["-nth"; "0"; "http://h/f"] = Go o
  ∧ 1 ≤ num_thread (split 4000 (default_output o))
  ∧ num_thread (split 4000 (default_output o))
    ≤ num_part (split 4000 (default_output o)).
Proof.
  intros o.
  destruct (thread_count_positive ["-nth"; "0"; "http://h/f"] o 4000)
    as (_ & _ & Hpos & Hle).
  - reflexivity.
  - vm_compute. split; [discriminate | reflexivity].
  - split; [reflexivity|]. split; [exact Hpos|]. apply Hle.
    + vm_compute. discriminate.
    + reflexivity.
Defined.
